(** * CRM GraphQL backend: mutations of [crm/schema.py] and the seed routine
      of [crm/seed_db.py], over an explicit model of the relational store.

    Conventions of the embedding.
    - A table is the list of its rows in insertion order; every row carries
      its primary key, and a new row receives a key above all present ones.
    - A handler is a computation in a state-and-exception monad over the
      store: raising leaves the store as the writes performed so far made it.
    - An identifier received from the API is a text that the ORM reads as
      an integer key or refuses; a price received is a finite float, held
      as its exact value, and stored amounts are hundredths.
    - Strings are sequences of characters with code points below 256,
      among which the decimal digits are 0 to 9.
    - The entries of a bulk call are dictionaries whose name, email and
      phone are strings or missing. *)

From Stdlib Require Import ZArith QArith Qabs List String Ascii Bool Arith Lia
  Permutation.
Import ListNotations.
Open Scope string_scope.
Open Scope Z_scope.

(** ** Regular expressions, as far as the phone pattern needs them *)

Module Re.

Inductive regex : Type :=
| Void : regex                       (* matches nothing *)
| Eps : regex                        (* the empty string *)
| Lit : ascii -> regex               (* one given character *)
| Digit : regex                      (* \d *)
| Cat : regex -> regex -> regex
| Alt : regex -> regex -> regex      (* r1|r2 *)
| Opt : regex -> regex.              (* r? *)

(** [\d] on code points below 256: the decimal digits 0-9. *)
Definition is_digit (c : ascii) : bool :=
  ((48 <=? nat_of_ascii c) && (nat_of_ascii c <=? 57))%nat.

Fixpoint nullable (r : regex) : bool :=
  match r with
  | Void => false
  | Eps => true
  | Lit _ => false
  | Digit => false
  | Cat r1 r2 => nullable r1 && nullable r2
  | Alt r1 r2 => nullable r1 || nullable r2
  | Opt _ => true
  end.

Fixpoint deriv (c : ascii) (r : regex) : regex :=
  match r with
  | Void => Void
  | Eps => Void
  | Lit d => if Ascii.eqb c d then Eps else Void
  | Digit => if is_digit c then Eps else Void
  | Cat r1 r2 =>
      if nullable r1
      then Alt (Cat (deriv c r1) r2) (deriv c r2)
      else Cat (deriv c r1) r2
  | Alt r1 r2 => Alt (deriv c r1) (deriv c r2)
  | Opt r1 => deriv c r1
  end.

(** The whole of [s] is a word of [r]. *)
Fixpoint fullmatch (r : regex) (s : string) : bool :=
  match s with
  | EmptyString => nullable r
  | String c s' => fullmatch (deriv c r) s'
  end.

(** r{n} *)
Fixpoint times (n : nat) (r : regex) : regex :=
  match n with
  | O => Eps
  | S n' => Cat r (times n' r)
  end.

(** r{lo,hi} *)
Definition between (lo hi : nat) (r : regex) : regex :=
  Cat (times lo r) (times (hi - lo) (Opt r)).

Definition newline : ascii := ascii_of_nat 10.

(** [s] without its last character when that is a newline. *)
Fixpoint chomp (s : string) : option string :=
  match s with
  | EmptyString => None
  | String c EmptyString => if Ascii.eqb c newline then Some EmptyString else None
  | String c s' =>
      match chomp s' with
      | Some w => Some (String c w)
      | None => None
      end
  end.

(** [re.match("^(r)$", s)] is not [None]: the pattern is anchored at the
    start, and [$] holds at the end of the string and also just before a
    newline that ends the string. *)
Definition match_anchored (r : regex) (s : string) : bool :=
  fullmatch r s ||
  match chomp s with
  | Some w => fullmatch r w
  | None => false
  end.

(** The words of a regular expression. *)
Fixpoint lang (r : regex) (s : string) : Prop :=
  match r with
  | Void => False
  | Eps => s = EmptyString
  | Lit c => s = String c EmptyString
  | Digit => exists c, s = String c EmptyString /\ is_digit c = true
  | Cat r1 r2 => exists u v, s = (u ++ v)%string /\ lang r1 u /\ lang r2 v
  | Alt r1 r2 => lang r1 s \/ lang r2 s
  | Opt r1 => s = EmptyString \/ lang r1 s
  end.

Fixpoint all_digits (s : string) : bool :=
  match s with
  | EmptyString => true
  | String c s' => is_digit c && all_digits s'
  end.

(** [n] characters, all of them digits. *)
Definition digits (n : nat) (s : string) : Prop :=
  String.length s = n /\ all_digits s = true.

End Re.

(** [^(\+?\d{10,15}|\d{3}-\d{3}-\d{4})$], the group between the anchors. *)
Definition phone_pattern : Re.regex :=
  Re.Alt
    (Re.Cat (Re.Opt (Re.Lit "+")) (Re.between 10 15 Re.Digit))
    (Re.Cat (Re.times 3 Re.Digit)
       (Re.Cat (Re.Lit "-")
          (Re.Cat (Re.times 3 Re.Digit)
             (Re.Cat (Re.Lit "-") (Re.times 4 Re.Digit))))).

Definition re_match_phone (phone : string) : bool :=
  Re.match_anchored phone_pattern phone.

(** The pattern in the spec's words: an optional leading [+] followed by
    10 to 15 digits, or the form NNN-NNN-NNNN. *)
Definition phone_number_shape (s : string) : Prop :=
  (exists w, (s = w \/ s = String "+" w) /\
             Re.all_digits w = true /\
             (10 <= String.length w <= 15)%nat)
  \/
  (exists a b c, s = (a ++ "-" ++ b ++ "-" ++ c)%string /\
                 Re.digits 3 a /\ Re.digits 3 b /\ Re.digits 4 c).

(** ** Data model *)

(** The model classes of [crm/models.py] are not among the sources; the rows
    below carry the fields the API types of [crm/schema.py] list. *)

Module Customer.
(** Modelled from the spec: the model class [Customer], with the fields
    [id], [name], [email] and the optional [phone]. *)
Record t : Type := Build
  { id : Z; name : string; email : string; phone : option string }.
End Customer.

Module Product.
(** Modelled from the spec: the model class [Product].  [price] is an exact
    decimal, held as its number of hundredths. *)
Record t : Type := Build
  { id : Z; name : string; price : Z; stock : Z }.
End Product.

(** Modelled from the spec: the price column of the missing
    [crm/models.py] holds two decimal places.  A price given as a float is
    rounded to the nearest hundredth, ties to even, when its row is saved;
    [price] is the exact value of the float. *)
Definition to_hundredths (price : Q) : Z :=
  let n := Qnum price * 100 in
  let d := Z.pos (Qden price) in
  let f := n / d in
  match 2 * (n mod d) ?= d with
  | Lt => f
  | Gt => f + 1
  | Eq => if Z.even f then f else f + 1
  end.

(** The instance [CreateProduct] returns.  Saving does not reload it: it
    carries the key and the fields of the row saved, and the price it was
    given, which the row holds rounded. *)
Record ProductInstance : Type := mkInstance
  { saved_row : Product.t; price_given : Q }.

Module Order.
(** Modelled from the spec: the model class [Order]: the key of its
    customer, the keys of its products (the rows of the association table
    that belong to it) and the total, in hundredths.  [order_date] is left
    out, nothing below reads it. *)
Record t : Type := Build
  { id : Z; customer : Z; products : list Z; total_amount : Z }.
End Order.

(** Modelled from the spec: the default of [Order.total_amount], declared in
    the missing [crm/models.py]; [CreateOrder] creates the order without
    giving a total and overwrites it before it returns. *)
Definition default_total_amount : Z := 0.

Record Store : Type := mkStore
  { customers : list Customer.t;
    products : list Product.t;
    orders : list Order.t }.

Definition empty_store : Store := mkStore [] [] [].

(** ** Errors *)

(** The spec's names for the places where a handler raises. *)
Inductive error_kind : Type :=
| DuplicateError | FormatError | RequiredFieldError
| RangeError | NotFoundError | ReferenceError.

Inductive error : Type :=
| ValidationError (kind : error_kind) (message : string)
| DoesNotExist
| MultipleObjectsReturned
| ValueError
| OverflowError.

(** ** The monad of handlers *)

Definition M (A : Type) : Type := Store -> (error + A) * Store.

Definition ret {A} (a : A) : M A := fun s => (inr a, s).

Definition raise {A} (e : error) : M A := fun s => (inl e, s).

Definition bind {A B} (m : M A) (k : A -> M B) : M B :=
  fun s =>
    match m s with
    | (inr a, s') => k a s'
    | (inl e, s') => (inl e, s')
    end.

Definition get_store : M Store := fun s => (inr s, s).

Definition modify (f : Store -> Store) : M unit := fun s => (inr tt, f s).

(** [try: m  except Exception as e: ...], the outcome handed to the caller. *)
Definition attempt {A} (m : M A) : M (error + A) :=
  fun s => let (r, s') := m s in (inr r, s').

(** [@transaction.atomic]: the writes of a body that raises are undone. *)
Definition atomic {A} (m : M A) : M A :=
  fun s =>
    match m s with
    | (inl e, _) => (inl e, s)
    | (inr a, s') => (inr a, s')
    end.

Notation "x <- m ;; k" := (bind m (fun x => k))
  (at level 61, m at next level, right associativity).
Notation "m ;;; k" := (bind m (fun _ => k))
  (at level 61, right associativity).

(** ** Store operations used by the handlers *)

(** Truth value of an optional string: [None] and [""] are false. *)
Definition truthy (s : option string) : bool :=
  match s with
  | None => false
  | Some EmptyString => false
  | Some (String _ _) => true
  end.

Definition str_or_empty (s : option string) : string :=
  match s with
  | Some v => v
  | None => EmptyString
  end.

(** [phone and not re.match(r"^(...)$", phone)] *)
Definition phone_rejected (phone : option string) : bool :=
  truthy phone && negb (re_match_phone (str_or_empty phone)).

(** A key above every key of the table. *)
Definition fresh_id (ids : list Z) : Z := 1 + fold_right Z.max 0 ids.

Arguments fresh_id : simpl never.

Definition has_email (email : string) (c : Customer.t) : bool :=
  String.eqb (Customer.email c) email.

(** [Customer.objects.filter(email=email).exists()] *)
Definition email_exists (email : string) : M bool :=
  s <- get_store ;;
  ret (existsb (has_email email) (customers s)).

Definition add_customer (c : Customer.t) (s : Store) : Store :=
  mkStore (customers s ++ [c]) (products s) (orders s).

Definition add_product (p : Product.t) (s : Store) : Store :=
  mkStore (customers s) (products s ++ [p]) (orders s).

Definition add_order (o : Order.t) (s : Store) : Store :=
  mkStore (customers s) (products s) (orders s ++ [o]).

Definition update_order (pk : Z) (f : Order.t -> Order.t) (s : Store) : Store :=
  mkStore (customers s) (products s)
    (map (fun o => if Order.id o =? pk then f o else o) (orders s)).

(** [Customer(name=.., email=.., phone=..)] followed by [save()] *)
Definition Customer_save (name email : string) (phone : option string)
  : M Customer.t :=
  s <- get_store ;;
  let c := Customer.Build (fresh_id (map Customer.id (customers s)))
                          name email phone in
  modify (add_customer c) ;;;
  ret c.

(** [Product(name=.., price=.., stock=..)] followed by [save()], for a
    price of [price] hundredths. *)
Definition Product_save (name : string) (price stock : Z) : M Product.t :=
  s <- get_store ;;
  let p := Product.Build (fresh_id (map Product.id (products s)))
                         name price stock in
  modify (add_product p) ;;;
  ret p.

(** A value of the GraphQL type [ID], as the ORM reads it when it is used
    as a primary key: [Key n] is a text that [int()] reads as the integer
    [n], [NoKey text] a text that [int()] refuses. *)
Inductive ID : Type :=
| Key (n : Z)
| NoKey (text : string).

Definition is_key (i : ID) : bool :=
  match i with
  | Key _ => true
  | NoKey _ => false
  end.

Definition key_of (i : ID) : Z :=
  match i with
  | Key n => n
  | NoKey _ => 0
  end.

(** The integers a key column and a statement parameter can hold: signed,
    64 bits. *)
Definition in_key_range (n : Z) : bool :=
  (- 2 ^ 63 <=? n) && (n <? 2 ^ 63).

(** The key field prepares a lookup value with [int()], which raises
    [ValueError] on a text that is no integer. *)
Definition get_prep_value (i : ID) : M Z :=
  match i with
  | Key n => ret n
  | NoKey _ => raise ValueError
  end.

(** Binding an integer as a parameter of a statement raises
    [OverflowError] outside the 64-bit range. *)
Definition bind_parameter (n : Z) : M Z :=
  if in_key_range n then ret n else raise OverflowError.

Fixpoint map_M {A B} (f : A -> M B) (l : list A) : M (list B) :=
  match l with
  | [] => ret []
  | x :: rest =>
      y <- f x ;;
      ys <- map_M f rest ;;
      ret (y :: ys)
  end.

(** [Customer.objects.get(pk=pk)]; a primary key selects at most one row. *)
Definition Customer_get (pk : ID) : M Customer.t :=
  n <- get_prep_value pk ;;
  n <- bind_parameter n ;;
  s <- get_store ;;
  match find (fun c => Customer.id c =? n) (customers s) with
  | Some c => ret c
  | None => raise DoesNotExist
  end.

(** The rows [Product.objects.filter(id__in=ids)] selects, once the ids
    are prepared and bound. *)
Definition products_in (ids : list Z) (s : Store) : list Product.t :=
  filter (fun p => existsb (Z.eqb (Product.id p)) ids) (products s).

(** [sum([p.price for p in products])] *)
Definition sum_prices (ps : list Product.t) : Z :=
  fold_left Z.add (map Product.price ps) 0.

(** [Order.objects.create(customer=customer, total_amount=total)]: a new
    row without associated products. *)
Definition Order_create (customer : Customer.t) (total : Z) : M Order.t :=
  s <- get_store ;;
  let o := Order.Build (fresh_id (map Order.id (orders s)))
                       (Customer.id customer) [] total in
  modify (add_order o) ;;;
  ret o.

(** [order.products.set(products)] replaces the rows of the association
    table that belong to [order]. *)
Definition Order_products_set (order : Order.t) (ps : list Product.t)
  : M Order.t :=
  let ids := map Product.id ps in
  modify (update_order (Order.id order)
            (fun o => Order.Build (Order.id o) (Order.customer o) ids
                                  (Order.total_amount o))) ;;;
  ret (Order.Build (Order.id order) (Order.customer order) ids
                   (Order.total_amount order)).

Definition set_total_amount (total : Z) (order : Order.t) : Order.t :=
  Order.Build (Order.id order) (Order.customer order) (Order.products order)
              total.

(** [order.save()] rewrites the columns of the order's own row; the
    association table is not touched. *)
Definition Order_save (order : Order.t) : M unit :=
  modify (update_order (Order.id order)
            (fun o => Order.Build (Order.id o) (Order.customer order)
                                  (Order.products o)
                                  (Order.total_amount order))).

(** ** CreateCustomer.mutate *)

Definition CreateCustomer (name email : string) (phone : option string)
  : M (Customer.t * string) :=
  dup <- email_exists email ;;
  if dup then raise (ValidationError DuplicateError "Email already exists.")
  else if phone_rejected phone
  then raise (ValidationError FormatError "Invalid phone format.")
  else
    customer <- Customer_save name email phone ;;
    ret (customer, "Customer created successfully!").

(** ** BulkCreateCustomers.mutate *)

(** One entry of the [customers] argument: a dictionary read with
    [.get("name")], [.get("email")] and [.get("phone")], each of which gives
    a string or nothing.  Entries that are no dictionaries, and values that
    are no strings, are outside this model. *)
Module CustomerData.
Record t : Type := Build
  { name : option string; email : option string; phone : option string }.
End CustomerData.

(** The body of the [try] block for one entry. *)
Definition bulk_try (customer_data : CustomerData.t) : M Customer.t :=
  let name := CustomerData.name customer_data in
  let email := CustomerData.email customer_data in
  let phone := CustomerData.phone customer_data in
  if negb (truthy name) || negb (truthy email)
  then raise (ValidationError RequiredFieldError "Name and Email are required.")
  else
    dup <- email_exists (str_or_empty email) ;;
    if dup
    then raise (ValidationError DuplicateError
                  ("Email already exists: " ++ str_or_empty email))
    else if phone_rejected phone
    then raise (ValidationError FormatError
                  ("Invalid phone format for: " ++ str_or_empty phone))
    else Customer_save (str_or_empty name) (str_or_empty email) phone.

(** The [for] loop.  [errors] holds the exceptions caught, in the order they
    were caught; the source keeps the text [str(e)] of each. *)
Fixpoint bulk_loop (customers : list CustomerData.t)
    (created_customers : list Customer.t) (errors : list error)
  : M (list Customer.t * list error) :=
  match customers with
  | [] => ret (created_customers, errors)
  | customer_data :: rest =>
      r <- attempt (bulk_try customer_data) ;;
      match r with
      | inr customer => bulk_loop rest (created_customers ++ [customer]) errors
      | inl e => bulk_loop rest created_customers (errors ++ [e])
      end
  end.

Definition BulkCreateCustomers (customers : list CustomerData.t)
  : M (list Customer.t * list error) :=
  atomic (bulk_loop customers [] []).

(** ** CreateProduct.mutate *)

(** [price] is the finite float received, as its exact value. *)
Definition CreateProduct (name : string) (price : Q) (stock : Z)
  : M ProductInstance :=
  if Qle_bool price 0
  then raise (ValidationError RangeError "Price must be positive.")
  else if stock <? 0
  then raise (ValidationError RangeError "Stock cannot be negative.")
  else
    row <- Product_save name (to_hundredths price) stock ;;
    ret (mkInstance row price).

(** The [createProduct] field: [stock] is optional with [default_value=0]. *)
Definition createProduct (name : string) (price : Q) (stock : option Z)
  : M ProductInstance :=
  CreateProduct name price (match stock with Some n => n | None => 0 end).

(** ** CreateOrder.mutate *)

Definition is_empty {A} (l : list A) : bool :=
  match l with
  | [] => true
  | _ :: _ => false
  end.

Definition CreateOrder (customer_id : ID) (product_ids : list ID)
  : M Order.t :=
  found <- attempt (Customer_get customer_id) ;;
  match found with
  | inl DoesNotExist =>
      raise (ValidationError NotFoundError "Invalid customer ID.")
  | inl e => raise e
  | inr customer =>
      if is_empty product_ids
      then raise (ValidationError RequiredFieldError
                    "At least one product must be selected.")
      else
        (* filter(id__in=product_ids) prepares the ids; count() binds them *)
        keys <- map_M get_prep_value product_ids ;;
        keys <- map_M bind_parameter keys ;;
        s <- get_store ;;
        let products := products_in keys s in
        if negb (Nat.eqb (List.length products) (List.length product_ids))
        then raise (ValidationError ReferenceError
                      "Some product IDs are invalid.")
        else
          order <- Order_create customer default_total_amount ;;
          order <- Order_products_set order products ;;
          let total_amount := sum_prices products in
          let order := set_total_amount total_amount order in
          Order_save order ;;;
          ret order
  end.

(** ** The seed routine of [crm/seed_db.py]

    The progress lines it prints are not part of the model. *)

Definition customers_data : list (string * string * string) :=
  [ ("Alice", "alice@example.com", "12345");
    ("Bob", "bob@example.com", "67890");
    ("Charlie", "charlie@example.com", "11223") ].

(** Prices in hundredths: 850.00, 500.00 and 75.00. *)
Definition products_data : list (string * Z * Z) :=
  [ ("Laptop", 85000, 10);
    ("Phone", 50000, 20);
    ("Headphones", 7500, 50) ].

(** [Customer.objects.get_or_create(email=.., defaults={name, phone})] *)
Definition Customer_get_or_create (email name phone : string)
  : M (Customer.t * bool) :=
  s <- get_store ;;
  match filter (has_email email) (customers s) with
  | [] =>
      c <- Customer_save name email (Some phone) ;;
      ret (c, true)
  | [c] => ret (c, false)
  | _ :: _ :: _ => raise MultipleObjectsReturned
  end.

(** [Product.objects.get_or_create(name=.., defaults={price, stock})] *)
Definition Product_get_or_create (name : string) (price stock : Z)
  : M (Product.t * bool) :=
  s <- get_store ;;
  match filter (fun p => String.eqb (Product.name p) name) (products s) with
  | [] =>
      p <- Product_save name price stock ;;
      ret (p, true)
  | [p] => ret (p, false)
  | _ :: _ :: _ => raise MultipleObjectsReturned
  end.

Fixpoint for_each {A} (body : A -> M unit) (l : list A) : M unit :=
  match l with
  | [] => ret tt
  | x :: rest => body x ;;; for_each body rest
  end.

Definition seed_customers : M unit :=
  for_each
    (fun data : string * string * string =>
       let '(name, email, phone) := data in
       Customer_get_or_create email name phone ;;; ret tt)
    customers_data.

Definition seed_products : M unit :=
  for_each
    (fun data : string * Z * Z =>
       let '(name, price, stock) := data in
       Product_get_or_create name price stock ;;; ret tt)
    products_data.

(** The row with the least primary key among [c0 :: cs]: what
    [Customer.objects.first()] returns on a table without declared order. *)
Definition first_by_pk (c0 : Customer.t) (cs : list Customer.t) : Customer.t :=
  fold_left (fun m c => if Customer.id c <? Customer.id m then c else m) cs c0.

Definition seed_orders : M unit :=
  s <- get_store ;;
  match customers s, products s with
  | [], _ => ret tt
  | _, [] => ret tt
  | c0 :: cs, _ =>
      let customer := first_by_pk c0 cs in
      let products := firstn 2 (products s) in
      order <- Order_create customer 0 ;;
      order <- Order_products_set order products ;;
      Order_save (set_total_amount (sum_prices products) order)
  end.

Definition run : M unit :=
  seed_customers ;;;
  seed_products ;;;
  seed_orders.

(** ** Derived notions used in the statements *)

(** The store a computation leaves, and its outcome. *)
Definition store_after {A} (m : M A) (s : Store) : Store := snd (m s).
Definition outcome {A} (m : M A) (s : Store) : error + A := fst (m s).

(** Presence of rows by key. *)
Definition email_taken (email : string) (s : Store) : Prop :=
  exists c, In c (customers s) /\ Customer.email c = email.

Definition customer_present (pk : Z) (s : Store) : Prop :=
  exists c, In c (customers s) /\ Customer.id c = pk.

Definition product_present (pk : Z) (s : Store) : Prop :=
  exists p, In p (products s) /\ Product.id p = pk.

(** The phone argument is acceptable: absent, empty, or matching. *)
Definition phone_acceptable (phone : option string) : Prop :=
  phone = None \/ phone = Some EmptyString \/
  exists p, phone = Some p /\ re_match_phone p = true.

(** The customer [CreateCustomer] and the bulk path persist in store [s]. *)
Definition new_customer (s : Store) (name email : string)
    (phone : option string) : Customer.t :=
  Customer.Build (fresh_id (map Customer.id (customers s))) name email phone.

Definition new_product (s : Store) (name : string) (price stock : Z)
  : Product.t :=
  Product.Build (fresh_id (map Product.id (products s))) name price stock.

(** The order [CreateOrder] builds once its three checks have passed. *)
Definition new_order (s : Store) (customer : Customer.t)
    (ps : list Product.t) : Order.t :=
  Order.Build (fresh_id (map Order.id (orders s))) (Customer.id customer)
              (map Product.id ps) (sum_prices ps).

(** Primary keys of the product table are pairwise distinct. *)
Definition products_pk_unique (s : Store) : Prop :=
  NoDup (map Product.id (products s)).

(** The price of the product a key resolves to. *)
Definition price_at (s : Store) (pk : Z) : Z :=
  match find (fun p => Product.id p =? pk) (products s) with
  | Some p => Product.price p
  | None => 0
  end.

Definition sum_Z (l : list Z) : Z := fold_right Z.add 0 l.

(** An entry of a bulk call is valid on its own in store [s]: name and
    email are given, the email is not taken in [s], the phone is absent,
    empty or matching. *)
Definition entry_valid (s : Store) (d : CustomerData.t) : bool :=
  truthy (CustomerData.name d) && truthy (CustomerData.email d) &&
  negb (existsb (has_email (str_or_empty (CustomerData.email d))) (customers s)) &&
  negb (phone_rejected (CustomerData.phone d)).




(** Store [s] with the customers [cs] appended. *)
Definition with_customers (s : Store) (cs : list Customer.t) : Store :=
  mkStore (customers s ++ cs) (products s) (orders s).

(** Emails of the customer table are pairwise distinct. *)
Definition emails_unique (s : Store) : Prop :=
  NoDup (map Customer.email (customers s)).

(** Every customer's phone is absent, empty, or matches the pattern. *)
Definition phones_ok (s : Store) : Prop :=
  Forall (fun c => phone_rejected (Customer.phone c) = false) (customers s).

(** One call of a mutation takes the store from [s] to [s']. *)
Inductive mutation : Store -> Store -> Prop :=
| mutation_CreateCustomer s name email phone :
    mutation s (store_after (CreateCustomer name email phone) s)
| mutation_BulkCreateCustomers s customers :
    mutation s (store_after (BulkCreateCustomers customers) s)
| mutation_CreateProduct s name price stock :
    mutation s (store_after (createProduct name price stock) s)
| mutation_CreateOrder s customer_id product_ids :
    mutation s (store_after (CreateOrder customer_id product_ids) s).

(** The stores the program can reach from the empty one: by the mutations
    alone when [seeding] is [false], by the mutations and the seed routine
    when it is [true]. *)
Inductive reachable (seeding : bool) : Store -> Prop :=
| reachable_empty : reachable seeding empty_store
| reachable_mutation s s' :
    reachable seeding s -> mutation s s' -> reachable seeding s'
| reachable_seed s :
    seeding = true -> reachable seeding s ->
    reachable seeding (store_after run s).

(** ** Query: the list resolvers of [crm/schema.py] *)

(** [Customer.objects.all()] *)
Definition resolve_customers : M (list Customer.t) :=
  s <- get_store ;; ret (customers s).

(** [Product.objects.all()] *)
Definition resolve_products : M (list Product.t) :=
  s <- get_store ;; ret (products s).

(** [Order.objects.all()] *)
Definition resolve_orders : M (list Order.t) :=
  s <- get_store ;; ret (orders s).

(** ** Further notions used in the statements *)

(** The rows a natural key selects. *)
Definition customers_with_email (email : string) (s : Store)
  : list Customer.t :=
  filter (has_email email) (customers s).

Definition products_named (name : string) (s : Store) : list Product.t :=
  filter (fun p => String.eqb (Product.name p) name) (products s).


(** An order of store [s] is sound: its customer and its products are rows
    of [s], it has at least one product, and its total is the sum of the
    prices its products resolve to. *)
Definition order_sound (s : Store) (o : Order.t) : Prop :=
  customer_present (Order.customer o) s /\
  Order.products o <> [] /\
  (forall i, In i (Order.products o) -> product_present i s) /\
  Order.total_amount o = sum_Z (map (price_at s) (Order.products o)).

(** Primary keys are pairwise distinct, table by table. *)
Definition pk_unique (s : Store) : Prop :=
  NoDup (map Customer.id (customers s)) /\
  NoDup (map Product.id (products s)) /\
  NoDup (map Order.id (orders s)).

(** The bodies of the two loops of the seed routine, and the number of rows
    a natural key selects. *)
Definition seed_customer (data : string * string * string) : M unit :=
  let '(name, email, phone) := data in
  Customer_get_or_create email name phone ;;; ret tt.

Definition seed_product (data : string * Z * Z) : M unit :=
  let '(name, price, stock) := data in
  Product_get_or_create name price stock ;;; ret tt.

Definition data_email (data : string * string * string) : string :=
  snd (fst data).

Definition data_name (data : string * Z * Z) : string := fst (fst data).

Definition count_email (email : string) (s : Store) : nat :=
  List.length (customers_with_email email s).

Definition count_name (name : string) (s : Store) : nat :=
  List.length (products_named name s).

(** Store [s'] holds the rows of [s], unchanged and in the same places,
    possibly followed by further rows. *)
Definition extends (s s' : Store) : Prop :=
  (exists cs, customers s' = (customers s ++ cs)%list) /\
  (exists ps, products s' = (products s ++ ps)%list) /\
  (exists os, orders s' = (orders s ++ os)%list).

(** The invariant of the store: emails and primary keys are pairwise
    distinct and every order is sound. *)
Definition store_sound (s : Store) : Prop :=
  emails_unique s /\ pk_unique s /\ Forall (order_sound s) (orders s).

(** * Properties *)

(** ** The matcher and the words of a pattern *)

Lemma or_iff_both (A A' B B' : Prop) :
  (A <-> A') -> (B <-> B') -> (A \/ B <-> A' \/ B').
Proof. tauto. Qed.

Lemma append_empty_r (s : string) : (s ++ EmptyString)%string = s.
Proof. induction s as [|c s IH]; cbn; [reflexivity|now rewrite IH]. Qed.

Lemma append_is_empty (u v : string) :
  EmptyString = (u ++ v)%string -> u = EmptyString /\ v = EmptyString.
Proof. destruct u; cbn; intro H; [now split|discriminate]. Qed.

Lemma length_append (u v : string) :
  String.length (u ++ v) = (String.length u + String.length v)%nat.
Proof. induction u as [|c u IH]; cbn; [reflexivity|now rewrite IH]. Qed.

Lemma all_digits_append (u v : string) :
  Re.all_digits (u ++ v) = Re.all_digits u && Re.all_digits v.
Proof.
  induction u as [|c u IH]; cbn; [reflexivity|].
  now rewrite IH, andb_assoc.
Qed.

Lemma split_at (n : nat) :
  forall s, (n <= String.length s)%nat ->
  exists u v, s = (u ++ v)%string /\ String.length u = n.
Proof.
  induction n as [|n IH]; intros s Hn.
  - exists EmptyString, s. now split.
  - destruct s as [|c s]; cbn in Hn; [lia|].
    destruct (IH s) as [u [v [-> Hu]]]; [lia|].
    exists (String c u), v. cbn. now rewrite Hu.
Qed.

Lemma nullable_lang (r : Re.regex) :
  Re.nullable r = true <-> Re.lang r EmptyString.
Proof.
  induction r as [| |c| |r1 IH1 r2 IH2|r1 IH1 r2 IH2|r1 IH1]; cbn.
  - split; [discriminate|tauto].
  - tauto.
  - split; discriminate.
  - split; [discriminate|]. intros [c [Hc _]]. discriminate.
  - rewrite andb_true_iff, IH1, IH2. split.
    + intros [H1 H2]. now exists EmptyString, EmptyString.
    + intros [u [v [Huv [H1 H2]]]].
      apply append_is_empty in Huv. destruct Huv; subst. now split.
  - now rewrite orb_true_iff, IH1, IH2.
  - tauto.
Qed.

Lemma deriv_lang (c : ascii) (r : Re.regex) :
  forall s, Re.lang (Re.deriv c r) s <-> Re.lang r (String c s).
Proof.
  induction r as [| |d| |r1 IH1 r2 IH2|r1 IH1 r2 IH2|r1 IH1]; intro s; cbn.
  - tauto.
  - split; [tauto|discriminate].
  - destruct (Ascii.eqb_spec c d) as [->|Hne]; cbn.
    + split; [now intros ->|]. intro H. now injection H.
    + split; [tauto|]. intro H. injection H as H _. contradiction.
  - destruct (Re.is_digit c) eqn:Hc; cbn.
    + split.
      * intros ->. now exists c.
      * intros [d [Hd _]]. now injection Hd.
    + split; [tauto|]. intros [d [Hd Hdig]]. injection Hd as -> _. congruence.
  - assert (Hcat : Re.lang (Re.Cat (Re.deriv c r1) r2) s <->
                   exists u v, String c s = (String c u ++ v)%string /\
                               Re.lang r1 (String c u) /\ Re.lang r2 v).
    { cbn. split; intros [u [v [Huv [H1 H2]]]]; exists u, v.
      - subst s. rewrite <- IH1. now repeat split.
      - injection Huv as ->. rewrite IH1. now repeat split. }
    destruct (Re.nullable r1) eqn:Hn.
    + change (Re.lang (Re.Cat (Re.deriv c r1) r2) s \/ Re.lang (Re.deriv c r2) s
              <-> exists u v, String c s = (u ++ v)%string /\
                              Re.lang r1 u /\ Re.lang r2 v).
      rewrite Hcat, IH2. apply nullable_lang in Hn. split.
      * intros [[u [v [Huv [H1 H2]]]] | H2].
        -- now exists (String c u), v.
        -- now exists EmptyString, (String c s).
      * intros [[|a u] [v [Huv [H1 H2]]]].
        -- right. cbn in Huv. now subst v.
        -- left. cbn in Huv. injection Huv as <- ->. now exists u, v.
    + rewrite Hcat. split.
      * intros [u [v [Huv [H1 H2]]]]. now exists (String c u), v.
      * intros [[|a u] [v [Huv [H1 H2]]]].
        -- apply nullable_lang in H1. congruence.
        -- cbn in Huv. injection Huv as <- ->. now exists u, v.
  - now rewrite IH1, IH2.
  - rewrite IH1. split; [tauto|]. intros [H|H]; [discriminate|assumption].
Qed.

(** The matcher decides membership in the language of the pattern. *)
Lemma fullmatch_lang (s : string) :
  forall r, Re.fullmatch r s = true <-> Re.lang r s.
Proof.
  induction s as [|c s IH]; intro r; cbn [Re.fullmatch].
  - apply nullable_lang.
  - rewrite IH. apply deriv_lang.
Qed.

Lemma lang_times_digit (n : nat) :
  forall s, Re.lang (Re.times n Re.Digit) s <-> Re.digits n s.
Proof.
  unfold Re.digits. induction n as [|n IH]; intro s; cbn [Re.times Re.lang].
  - split.
    + intros ->. now split.
    + intros [Hlen _]. destruct s; [reflexivity|discriminate].
  - split.
    + intros [u [v [-> [[c [-> Hc]] Hv]]]]. apply IH in Hv.
      destruct Hv as [Hlen Hdig]. cbn. now rewrite Hlen, Hc, Hdig.
    + intros [Hlen Hdig]. destruct s as [|c s]; [discriminate|].
      cbn in Hlen, Hdig. apply andb_prop in Hdig. destruct Hdig as [Hc Hs].
      exists (String c EmptyString), s. split; [reflexivity|]. split.
      * now exists c.
      * apply IH. split; [lia|assumption].
Qed.

Lemma lang_times_opt_digit (n : nat) :
  forall s, Re.lang (Re.times n (Re.Opt Re.Digit)) s <->
            (String.length s <= n)%nat /\ Re.all_digits s = true.
Proof.
  induction n as [|n IH]; intro s; cbn [Re.times Re.lang].
  - split.
    + intros ->. now split.
    + intros [Hlen _]. destruct s; [reflexivity|cbn in Hlen; lia].
  - split.
    + intros [u [v [-> [[-> | [c [-> Hc]]] Hv]]]]; apply IH in Hv;
        destruct Hv as [Hlen Hdig]; cbn.
      * split; [lia|assumption].
      * rewrite Hc, Hdig. split; [lia|reflexivity].
    + intros [Hlen Hdig]. destruct s as [|c s].
      * exists EmptyString, EmptyString. split; [reflexivity|].
        split; [now left|]. apply IH. split; [cbn; lia|reflexivity].
      * cbn in Hlen, Hdig. apply andb_prop in Hdig. destruct Hdig as [Hc Hs].
        exists (String c EmptyString), s. split; [reflexivity|]. split.
        -- right. now exists c.
        -- apply IH. split; [lia|assumption].
Qed.

Lemma lang_between_digit (lo hi : nat) (s : string) :
  (lo <= hi)%nat ->
  Re.lang (Re.between lo hi Re.Digit) s <->
  Re.all_digits s = true /\ (lo <= String.length s <= hi)%nat.
Proof.
  intro Hle. unfold Re.between. cbn [Re.lang]. split.
  - intros [u [v [-> [Hu Hv]]]].
    apply lang_times_digit in Hu. apply lang_times_opt_digit in Hv.
    destruct Hu as [Hlu Hdu]. destruct Hv as [Hlv Hdv].
    rewrite all_digits_append, length_append, Hdu, Hdv. split; [reflexivity|lia].
  - intros [Hdig Hlen].
    destruct (split_at lo s) as [u [v [-> Hu]]]; [lia|].
    rewrite all_digits_append in Hdig. apply andb_prop in Hdig.
    rewrite length_append in Hlen.
    exists u, v. split; [reflexivity|]. split.
    + apply lang_times_digit. split; tauto.
    + apply lang_times_opt_digit. split; [lia|tauto].
Qed.

(** The words of the phone pattern are the numbers of the spec's
    description. *)
Lemma lang_phone_pattern (s : string) :
  Re.lang phone_pattern s <-> phone_number_shape s.
Proof.
  unfold phone_pattern, phone_number_shape.
  cbn [Re.lang]. apply or_iff_both.
  - split.
    + intros [u [v [-> [Hu Hv]]]].
      apply (lang_between_digit 10 15) in Hv; [|lia]. exists v.
      destruct Hu as [-> | ->]; cbn; tauto.
    + intros [w [Hs [Hdig Hlen]]].
      assert (Hw : Re.lang (Re.between 10 15 Re.Digit) w).
      { apply lang_between_digit; [lia|tauto]. }
      destruct Hs as [-> | ->].
      * exists EmptyString, w. cbn. tauto.
      * exists (String "+" EmptyString), w. cbn. tauto.
  - split.
    + intros [a [v1 [-> [Ha H1]]]].
      destruct H1 as [d1 [v2 [-> [-> H2]]]].
      destruct H2 as [b [v3 [-> [Hb H3]]]].
      destruct H3 as [d2 [c [-> [-> Hc]]]].
      apply lang_times_digit in Ha, Hb, Hc. now exists a, b, c.
    + intros [a [b [c [-> [Ha [Hb Hc]]]]]].
      apply lang_times_digit in Ha, Hb, Hc.
      exists a, ("-" ++ b ++ "-" ++ c)%string. repeat split; try assumption.
      exists "-"%string, (b ++ "-" ++ c)%string. repeat split.
      exists b, ("-" ++ c)%string. repeat split; try assumption.
      exists "-"%string, c. now repeat split.
Qed.

Lemma chomp_append_newline (w : string) :
  Re.chomp (w ++ String Re.newline EmptyString) = Some w.
Proof.
  induction w as [|a w IH].
  - reflexivity.
  - change (String a w ++ String Re.newline EmptyString)%string
      with (String a (w ++ String Re.newline EmptyString)).
    cbn [Re.chomp]. rewrite IH.
    destruct (w ++ String Re.newline EmptyString)%string eqn:E; [|reflexivity].
    symmetry in E. apply append_is_empty in E. destruct E. discriminate.
Qed.

Lemma chomp_some (s : string) :
  forall w, Re.chomp s = Some w ->
            s = (w ++ String Re.newline EmptyString)%string.
Proof.
  induction s as [|c s IH]; intros w H.
  - discriminate.
  - cbn [Re.chomp] in H. destruct s as [|c' s'].
    + destruct (Ascii.eqb_spec c Re.newline) as [->|Hne]; [|discriminate].
      injection H as <-. reflexivity.
    + destruct (Re.chomp (String c' s')) as [w'|]; [|discriminate].
      injection H as <-. cbn. f_equal. now apply IH.
Qed.

Lemma chomp_spec (s w : string) :
  Re.chomp s = Some w <-> s = (w ++ String Re.newline EmptyString)%string.
Proof.
  split; [apply chomp_some|]. intros ->. apply chomp_append_newline.
Qed.

(** X1.  On strings of characters below U+0100, what the anchored match of
    the phone pattern accepts: a number of the spec's description, an
    optional [+] followed by 10 to 15 of the digits 0 to 9 or the form
    NNN-NNN-NNNN, possibly followed by one final newline. *)
Lemma re_match_phone_shape (s : string) :
  re_match_phone s = true <->
  phone_number_shape s \/
  exists w, s = (w ++ String Re.newline EmptyString)%string /\
            phone_number_shape w.
Proof.
  unfold re_match_phone, Re.match_anchored.
  rewrite orb_true_iff, fullmatch_lang, lang_phone_pattern.
  apply or_iff_both; [reflexivity|].
  destruct (Re.chomp s) as [w|] eqn:Hch.
  - rewrite fullmatch_lang, lang_phone_pattern. apply chomp_spec in Hch.
    split.
    + intro Hw. now exists w.
    + intros [w' [Hs Hw']]. apply chomp_spec in Hs. apply chomp_spec in Hch.
      congruence.
  - split; [discriminate|]. intros [w [Hs _]]. apply chomp_spec in Hs.
    congruence.
Qed.

(** ** Examples of the phone pattern *)

Example phone_plain : re_match_phone "1234567890" = true.
Proof. reflexivity. Qed.

Example phone_plus : re_match_phone "+123456789012345" = true.
Proof. reflexivity. Qed.

Example phone_dashed : re_match_phone "123-456-7890" = true.
Proof. reflexivity. Qed.

Example phone_short : re_match_phone "12345" = false.
Proof. reflexivity. Qed.

Example phone_long : re_match_phone "1234567890123456" = false.
Proof. reflexivity. Qed.

Example phone_mixed : re_match_phone "+123-456-7890" = false.
Proof. reflexivity. Qed.

(** [$] also holds just before a newline that ends the string. *)
Example phone_trailing_newline :
  re_match_phone ("1234567890" ++ String Re.newline EmptyString) = true /\
  re_match_phone ("1234567890" ++ String Re.newline (String Re.newline EmptyString))
  = false.
Proof. split; reflexivity. Qed.

(** ** Lookups *)

Lemma fresh_id_above (ids : list Z) (x : Z) :
  In x ids -> x < fresh_id ids.
Proof.
  unfold fresh_id. induction ids as [|y ids IH]; intros Hin.
  - destruct Hin.
  - cbn [fold_right]. destruct Hin as [-> | Hin].
    + lia.
    + specialize (IH Hin). lia.
Qed.

Lemma fresh_id_positive (ids : list Z) : 0 < fresh_id ids.
Proof.
  unfold fresh_id. induction ids as [|y ids IH]; cbn [fold_right]; lia.
Qed.

Lemma email_exists_true (email : string) (s : Store) :
  existsb (has_email email) (customers s) = true <-> email_taken email s.
Proof.
  unfold email_taken, has_email. rewrite existsb_exists.
  split; intros [c [Hin Hc]]; exists c; split; auto.
  - now apply String.eqb_eq.
  - now apply String.eqb_eq.
Qed.

Lemma email_exists_false (email : string) (s : Store) :
  existsb (has_email email) (customers s) = false <-> ~ email_taken email s.
Proof.
  rewrite <- email_exists_true.
  destruct (existsb (has_email email) (customers s)); split; intro H;
    congruence.
Qed.

Lemma find_customer_some (pk : Z) (s : Store) :
  customer_present pk s ->
  exists c, find (fun c => Customer.id c =? pk) (customers s) = Some c.
Proof.
  intros [c [Hin Hid]].
  destruct (find (fun c0 => Customer.id c0 =? pk) (customers s)) as [c'|] eqn:E.
  - now exists c'.
  - exfalso. pose proof (find_none _ _ E c Hin) as Hn. cbn in Hn.
    apply Z.eqb_neq in Hn. contradiction.
Qed.


Lemma phone_acceptable_not_rejected (phone : option string) :
  phone_acceptable phone -> phone_rejected phone = false.
Proof.
  unfold phone_rejected.
  intros [-> | [-> | [p [-> Hp]]]]; try reflexivity.
  cbn [str_or_empty]. rewrite Hp. now rewrite andb_false_r.
Qed.

Lemma phone_unmatched_rejected (p : string) :
  p <> EmptyString -> re_match_phone p = false ->
  phone_rejected (Some p) = true.
Proof.
  intros Hne Hp. unfold phone_rejected. cbn [str_or_empty]. rewrite Hp.
  destruct p; [contradiction|reflexivity].
Qed.

(** What [CreateCustomer] does once the email is known to be free. *)
Lemma CreateCustomer_fresh (s : Store) (name email : string)
    (phone : option string) :
  ~ email_taken email s ->
  CreateCustomer name email phone s =
  if phone_rejected phone
  then (inl (ValidationError FormatError "Invalid phone format."), s)
  else (inr (new_customer s name email phone, "Customer created successfully!"),
        add_customer (new_customer s name email phone) s).
Proof.
  intro Hfree. apply email_exists_false in Hfree.
  unfold CreateCustomer, email_exists, bind, get_store, ret. rewrite Hfree.
  destruct (phone_rejected phone); reflexivity.
Qed.

Lemma CreateCustomer_taken (s : Store) (name email : string)
    (phone : option string) :
  existsb (has_email email) (customers s) = true ->
  CreateCustomer name email phone s =
  (inl (ValidationError DuplicateError "Email already exists."), s).
Proof.
  intro Htaken. unfold CreateCustomer, email_exists, bind, get_store, ret.
  now rewrite Htaken.
Qed.

(** ** CreateCustomer *)

(** C5. In every store, for every customer already present, calling
    CreateCustomer with that customer's email (whatever the name and the
    phone) raises the duplicate-email error and leaves the store exactly as
    it was. *)
Theorem CreateCustomer_duplicate_email_unchanged
    (s : Store) (c : Customer.t) (name : string) (phone : option string) :
  In c (customers s) ->
  CreateCustomer name (Customer.email c) phone s =
  (inl (ValidationError DuplicateError "Email already exists."), s).
Proof.
  intro Hin. apply CreateCustomer_taken.
  apply email_exists_true. now exists c.
Qed.

Lemma CreateCustomer_duplicate_email_unchanged_witness :
  let alice := Customer.Build 1 "Alice" "alice@example.com" None in
  let s := mkStore [alice] [] [] in
  In alice (customers s) /\
  CreateCustomer "Alicia" "alice@example.com" (Some "bad") s =
  (inl (ValidationError DuplicateError "Email already exists."), s).
Proof.
  intros alice s. split.
  - simpl. left. reflexivity.
  - apply (CreateCustomer_duplicate_email_unchanged s alice "Alicia" (Some "bad")).
    simpl. left. reflexivity.
Defined.

(** C6, as stated, fails: with an email that is already taken the
    duplicate-email check comes first, so an unmatched phone does not give
    the format error and a matching phone does not give success. *)
Lemma CreateCustomer_phone_claim_counterexample :
  ~ (forall (s : Store) (name email p : string),
        p <> EmptyString -> re_match_phone p = false ->
        exists msg,
          outcome (CreateCustomer name email (Some p)) s =
          inl (ValidationError FormatError msg))
  /\
  ~ (forall (s : Store) (name email p : string),
        re_match_phone p = true ->
        exists r, outcome (CreateCustomer name email (Some p)) s = inr r).
Proof.
  pose (s := mkStore [Customer.Build 1 "Alice" "alice@example.com" None] [] []).
  split; intro H.
  - destruct (H s "Bob" "alice@example.com" "abc") as [msg Hmsg].
    + discriminate.
    + reflexivity.
    + vm_compute in Hmsg. discriminate.
  - destruct (H s "Bob" "alice@example.com" "1234567890") as [r Hr].
    + reflexivity.
    + vm_compute in Hr. discriminate.
Qed.

(** C6, amended. For every email not already present in the store:
    CreateCustomer with a non-empty phone that does not match the pattern
    raises the format error (and writes nothing); with a phone that
    matches, or an empty or absent phone, it succeeds and persists the
    customer. *)
Theorem CreateCustomer_phone_format
    (s : Store) (name email : string) (phone : option string) :
  ~ email_taken email s ->
  (forall p, phone = Some p -> p <> EmptyString -> re_match_phone p = false ->
     CreateCustomer name email phone s =
     (inl (ValidationError FormatError "Invalid phone format."), s))
  /\
  (phone_acceptable phone ->
     CreateCustomer name email phone s =
     (inr (new_customer s name email phone, "Customer created successfully!"),
      add_customer (new_customer s name email phone) s)).
Proof.
  intro Hfree. split.
  - intros p -> Hne Hp. rewrite (CreateCustomer_fresh _ _ _ _ Hfree).
    now rewrite (phone_unmatched_rejected p Hne Hp).
  - intro Hok. rewrite (CreateCustomer_fresh _ _ _ _ Hfree).
    now rewrite (phone_acceptable_not_rejected phone Hok).
Qed.

Lemma CreateCustomer_phone_format_witness :
  let s := mkStore [Customer.Build 1 "Alice" "alice@example.com" None] [] [] in
  ~ email_taken "bob@example.com" s /\
  CreateCustomer "Bob" "bob@example.com" (Some "12345") s =
  (inl (ValidationError FormatError "Invalid phone format."), s) /\
  CreateCustomer "Bob" "bob@example.com" (Some "123-456-7890") s =
  (inr (Customer.Build 2 "Bob" "bob@example.com" (Some "123-456-7890"),
        "Customer created successfully!"),
   mkStore [Customer.Build 1 "Alice" "alice@example.com" None;
            Customer.Build 2 "Bob" "bob@example.com" (Some "123-456-7890")]
           [] []).
Proof.
  intro s.
  assert (Hfree : ~ email_taken "bob@example.com" s).
  { apply email_exists_false. reflexivity. }
  split; [exact Hfree|]. split.
  - apply (proj1 (CreateCustomer_phone_format s "Bob" "bob@example.com"
                    (Some "12345") Hfree) "12345");
      [reflexivity | discriminate | reflexivity].
  - apply (proj2 (CreateCustomer_phone_format s "Bob" "bob@example.com"
                    (Some "123-456-7890") Hfree)).
    right. right. exists "123-456-7890". split; reflexivity.
Defined.

(** C9. For every email not already present in the store, CreateCustomer
    with the empty name and a valid or absent phone succeeds and persists a
    customer whose name is empty; the bulk path, on the contrary, rejects an
    entry whose name or email is missing or empty, writing nothing. *)
Theorem CreateCustomer_accepts_empty_name
    (s : Store) (email : string) (phone : option string) :
  ~ email_taken email s ->
  phone = None \/ (exists p, phone = Some p /\ re_match_phone p = true) ->
  (exists c,
      CreateCustomer EmptyString email phone s =
      (inr (c, "Customer created successfully!"), add_customer c s) /\
      Customer.name c = EmptyString /\
      Customer.email c = email /\
      In c (customers (store_after (CreateCustomer EmptyString email phone) s)))
  /\
  (forall d : CustomerData.t,
      truthy (CustomerData.name d) = false \/
      truthy (CustomerData.email d) = false ->
      bulk_try d s =
      (inl (ValidationError RequiredFieldError "Name and Email are required."),
       s)).
Proof.
  intros Hfree Hphone. split.
  - exists (new_customer s EmptyString email phone).
    assert (Hok : phone_acceptable phone).
    { destruct Hphone as [-> | Hp]; [now left | now right; right]. }
    pose proof (proj2 (CreateCustomer_phone_format s EmptyString email phone
                         Hfree) Hok) as Hrun.
    repeat split; try assumption.
    unfold store_after. rewrite Hrun. cbn. apply in_or_app. right. now left.
  - intros d Hd. unfold bulk_try.
    destruct Hd as [Hd | Hd]; rewrite Hd; cbn [negb orb].
    + reflexivity.
    + rewrite orb_true_r. reflexivity.
Qed.

Lemma CreateCustomer_accepts_empty_name_witness :
  ~ email_taken "bob@example.com" empty_store /\
  (exists c,
      CreateCustomer EmptyString "bob@example.com" None empty_store =
      (inr (c, "Customer created successfully!"), add_customer c empty_store) /\
      Customer.name c = EmptyString) /\
  bulk_try (CustomerData.Build (Some EmptyString) (Some "bob@example.com") None)
           empty_store =
  (inl (ValidationError RequiredFieldError "Name and Email are required."),
   empty_store).
Proof.
  assert (Hfree : ~ email_taken "bob@example.com" empty_store).
  { apply email_exists_false. reflexivity. }
  pose proof (CreateCustomer_accepts_empty_name empty_store "bob@example.com"
                None Hfree (or_introl eq_refl)) as [[c [Hrun [Hname _]]] Hbulk].
  split; [exact Hfree|]. split.
  - exists c. split; assumption.
  - apply Hbulk. left. reflexivity.
Defined.

(** ** CreateProduct *)




(** Whatever the arguments, [createProduct] either raises and writes
    nothing or appends the row it has built. *)
Lemma createProduct_effect (s : Store) (name : string) (price : Q)
    (stock : option Z) :
  (exists e, createProduct name price stock s = (inl e, s)) \/
  (exists stock',
      createProduct name price stock s =
      (inr (mkInstance (new_product s name (to_hundredths price) stock')
                       price),
       add_product (new_product s name (to_hundredths price) stock') s)).
Proof.
  unfold createProduct, CreateProduct.
  destruct (Qle_bool price 0); [left; eexists; reflexivity|].
  destruct (_ <? 0); [left; eexists; reflexivity|].
  right. eexists. reflexivity.
Qed.




(** ** CreateOrder *)

Lemma update_order_last (s : Store) (o : Order.t) (f : Order.t -> Order.t) :
  Order.id o = fresh_id (map Order.id (orders s)) ->
  update_order (Order.id o) f (add_order o s) = add_order (f o) s.
Proof.
  intro Hid. unfold update_order, add_order. cbn [customers products orders].
  f_equal. rewrite map_app. cbn [map]. rewrite Z.eqb_refl. f_equal.
  rewrite <- (map_id (orders s)) at 2. apply map_ext_in.
  intros o' Hin.
  pose proof (fresh_id_above _ _ (in_map Order.id _ _ Hin)) as Hlt.
  destruct (Z.eqb_spec (Order.id o') (Order.id o)); [lia|reflexivity].
Qed.

Lemma create_order_writes (s : Store) (customer : Customer.t)
    (ps : list Product.t) (total : Z) :
  (order <- Order_create customer total ;;
   order <- Order_products_set order ps ;;
   Order_save (set_total_amount (sum_prices ps) order) ;;;
   ret (set_total_amount (sum_prices ps) order)) s =
  (inr (new_order s customer ps), add_order (new_order s customer ps) s).
Proof.
  unfold Order_create, Order_products_set, Order_save, bind, get_store,
    modify, ret, set_total_amount.
  cbn [Order.id Order.customer Order.products Order.total_amount].
  set (o := Order.Build (fresh_id (map Order.id (orders s)))
                        (Customer.id customer) [] total).
  change (fresh_id (map Order.id (orders s))) with (Order.id o).
  rewrite (update_order_last s o) by reflexivity.
  cbn [Order.id Order.customer Order.products Order.total_amount].
  set (o1 := Order.Build (Order.id o) (Order.customer o) (map Product.id ps)
                         (Order.total_amount o)).
  change (Order.id o) with (Order.id o1) at 1.
  rewrite (update_order_last s o1) by reflexivity.
  reflexivity.
Qed.

Lemma map_M_get_prep_value (ids : list ID) (s : Store) :
  map_M get_prep_value ids s =
  if forallb is_key ids then (inr (map key_of ids), s)
  else (inl ValueError, s).
Proof.
  induction ids as [|i ids IH]; [reflexivity|].
  cbn [map_M forallb map]. unfold bind at 1.
  destruct i as [n|text]; cbn [get_prep_value is_key andb]; [|reflexivity].
  unfold ret at 1. unfold bind at 1. rewrite IH.
  destruct (forallb is_key ids); reflexivity.
Qed.

Lemma map_M_bind_parameter (keys : list Z) (s : Store) :
  map_M bind_parameter keys s =
  if forallb in_key_range keys then (inr keys, s)
  else (inl OverflowError, s).
Proof.
  induction keys as [|n keys IH]; [reflexivity|].
  cbn [map_M forallb]. unfold bind at 1. unfold bind_parameter at 1.
  destruct (in_key_range n); cbn [andb]; [|reflexivity].
  unfold ret at 1. unfold bind at 1. rewrite IH.
  destruct (forallb in_key_range keys); reflexivity.
Qed.

(** [CreateOrder], check by check, on any ids. *)
Lemma CreateOrder_cases (s : Store) (customer_id : ID) (product_ids : list ID) :
  CreateOrder customer_id product_ids s =
  match customer_id with
  | NoKey _ => (inl ValueError, s)
  | Key n =>
      if in_key_range n
      then
        match find (fun c => Customer.id c =? n) (customers s) with
        | None =>
            (inl (ValidationError NotFoundError "Invalid customer ID."), s)
        | Some customer =>
            if is_empty product_ids
            then (inl (ValidationError RequiredFieldError
                         "At least one product must be selected."), s)
            else if forallb is_key product_ids
            then
              if forallb in_key_range (map key_of product_ids)
              then
                if Nat.eqb
                     (List.length (products_in (map key_of product_ids) s))
                     (List.length product_ids)
                then
                  (inr (new_order s customer
                          (products_in (map key_of product_ids) s)),
                   add_order
                     (new_order s customer
                        (products_in (map key_of product_ids) s)) s)
                else (inl (ValidationError ReferenceError
                             "Some product IDs are invalid."), s)
              else (inl OverflowError, s)
            else (inl ValueError, s)
        end
      else (inl OverflowError, s)
  end.
Proof.
  unfold CreateOrder, Customer_get.
  unfold bind at 1. unfold attempt. unfold bind at 1.
  destruct customer_id as [n|text]; cbn [get_prep_value]; [|reflexivity].
  unfold ret at 1. unfold bind at 1. unfold bind_parameter.
  destruct (in_key_range n); [|reflexivity].
  unfold ret at 1. unfold bind at 1. unfold get_store at 1.
  destruct (find (fun c => Customer.id c =? n) (customers s))
    as [customer|]; cbn [raise ret]; [|reflexivity].
  destruct (is_empty product_ids); [reflexivity|].
  unfold bind at 1. rewrite map_M_get_prep_value.
  destruct (forallb is_key product_ids); [|reflexivity].
  unfold bind at 1. rewrite map_M_bind_parameter.
  destruct (forallb in_key_range (map key_of product_ids)); [|reflexivity].
  unfold bind at 1. unfold get_store at 1.
  destruct (Nat.eqb (List.length (products_in (map key_of product_ids) s))
                    (List.length product_ids)); cbn [negb].
  - apply create_order_writes.
  - reflexivity.
Qed.

Lemma keys_are_keys (ids : list Z) :
  forallb is_key (map Key ids) = true /\ map key_of (map Key ids) = ids.
Proof.
  induction ids as [|i ids [IH1 IH2]]; [now split|].
  cbn [map forallb is_key key_of andb]. now rewrite IH1, IH2.
Qed.

(** [CreateOrder], check by check, on ids that are integers of the key
    range. *)
Lemma CreateOrder_unfold (s : Store) (customer_id : Z) (product_ids : list Z) :
  in_key_range customer_id = true ->
  forallb in_key_range product_ids = true ->
  CreateOrder (Key customer_id) (map Key product_ids) s =
  match find (fun c => Customer.id c =? customer_id) (customers s) with
  | None => (inl (ValidationError NotFoundError "Invalid customer ID."), s)
  | Some customer =>
      if is_empty product_ids
      then (inl (ValidationError RequiredFieldError
                   "At least one product must be selected."), s)
      else if Nat.eqb (List.length (products_in product_ids s))
                      (List.length product_ids)
      then (inr (new_order s customer (products_in product_ids s)),
            add_order (new_order s customer (products_in product_ids s)) s)
      else (inl (ValidationError ReferenceError
                   "Some product IDs are invalid."), s)
  end.
Proof.
  intros Hc Hp. rewrite CreateOrder_cases, Hc.
  destruct (keys_are_keys product_ids) as [Hk Hm].
  rewrite Hk, Hm, Hp, length_map.
  destruct (find _ (customers s)); [|reflexivity].
  destruct product_ids; reflexivity.
Qed.

(** Whatever the ids, [CreateOrder] either raises and writes nothing or
    appends the order it has built for a customer and a non-empty selection
    of products of the store. *)
Lemma CreateOrder_effect (s : Store) (customer_id : ID) (product_ids : list ID) :
  (exists e, CreateOrder customer_id product_ids s = (inl e, s)) \/
  (exists customer ps,
      In customer (customers s) /\ ps <> [] /\ incl ps (products s) /\
      CreateOrder customer_id product_ids s =
      (inr (new_order s customer ps), add_order (new_order s customer ps) s)).
Proof.
  rewrite CreateOrder_cases.
  destruct customer_id as [n|text]; [|left; eexists; reflexivity].
  destruct (in_key_range n); [|left; eexists; reflexivity].
  destruct (find _ (customers s)) as [customer|] eqn:Hfind;
    [|left; eexists; reflexivity].
  destruct product_ids as [|i ids]; [left; eexists; reflexivity|].
  cbn [is_empty].
  destruct (forallb is_key (i :: ids)); [|left; eexists; reflexivity].
  destruct (forallb in_key_range _); [|left; eexists; reflexivity].
  destruct (Nat.eqb_spec
              (List.length (products_in (map key_of (i :: ids)) s))
              (List.length (i :: ids))) as [Hlen|];
    [|left; eexists; reflexivity].
  right. exists customer, (products_in (map key_of (i :: ids)) s).
  split; [|split; [|split]].
  - apply find_some in Hfind. tauto.
  - intro Hnil. rewrite Hnil in Hlen. discriminate.
  - intros p Hp. apply filter_In in Hp. tauto.
  - reflexivity.
Qed.




(** *** Resolution of product ids *)

Lemma in_products_in (ids : list Z) (s : Store) (p : Product.t) :
  In p (products_in ids s) <-> In p (products s) /\ In (Product.id p) ids.
Proof.
  unfold products_in. rewrite filter_In, existsb_exists.
  split; intros [Hin Hid]; split; try assumption.
  - destruct Hid as [i [Hi Heq]]. apply Z.eqb_eq in Heq. now subst.
  - exists (Product.id p). split; [assumption|apply Z.eqb_refl].
Qed.

Lemma NoDup_map_filter {A B} (g : A -> B) (f : A -> bool) (l : list A) :
  NoDup (map g l) -> NoDup (map g (filter f l)).
Proof.
  induction l as [|a l IH]; cbn [map filter]; intro Hnd.
  - constructor.
  - inversion Hnd as [|x xs Hnotin Hrest]; subst.
    destruct (f a); cbn [map]; [|now apply IH].
    constructor; [|now apply IH].
    intro Hin. apply Hnotin. apply in_map_iff in Hin.
    destruct Hin as [b [Hb Hinb]]. apply filter_In in Hinb.
    apply in_map_iff. exists b. tauto.
Qed.

Lemma resolved_ids_nodup (ids : list Z) (s : Store) :
  products_pk_unique s -> NoDup (map Product.id (products_in ids s)).
Proof. intro Hu. now apply NoDup_map_filter. Qed.

Lemma in_resolved_ids (ids : list Z) (s : Store) (i : Z) :
  In i (map Product.id (products_in ids s)) <->
  In i ids /\ product_present i s.
Proof.
  rewrite in_map_iff. split.
  - intros [p [Hid Hin]]. apply in_products_in in Hin. subst i.
    split; [tauto|]. exists p. tauto.
  - intros [Hi [p [Hin Hid]]]. exists p. split; [assumption|].
    apply in_products_in. subst i. tauto.
Qed.

(** Duplicate-free ids that all resolve select as many products as there
    are ids, and these are the ids' products. *)
Lemma resolved_ids_permutation (ids : list Z) (s : Store) :
  products_pk_unique s -> NoDup ids ->
  (forall i, In i ids -> product_present i s) ->
  Permutation (map Product.id (products_in ids s)) ids.
Proof.
  intros Hu Hnd Hall. apply NoDup_Permutation.
  - now apply resolved_ids_nodup.
  - assumption.
  - intro i. rewrite in_resolved_ids. split; [tauto|]. intro Hi.
    split; [assumption|now apply Hall].
Qed.

(** An id that does not resolve leaves the selection short. *)
Lemma unresolved_id_short (ids : list Z) (s : Store) (i : Z) :
  products_pk_unique s -> In i ids -> ~ product_present i s ->
  (List.length (products_in ids s) < List.length ids)%nat.
Proof.
  intros Hu Hi Habs.
  rewrite <- (length_map Product.id (products_in ids s)).
  apply Nat.le_lt_trans with (List.length (remove Z.eq_dec i ids)).
  - apply NoDup_incl_length; [now apply resolved_ids_nodup|].
    intros j Hj. apply in_resolved_ids in Hj. destruct Hj as [Hj Hp].
    apply in_in_remove; [|assumption]. intro Heq. subst j. contradiction.
  - now apply remove_length_lt.
Qed.

Lemma find_by_pk_unique (ps : list Product.t) (p : Product.t) :
  NoDup (map Product.id ps) -> In p ps ->
  find (fun q => Product.id q =? Product.id p) ps = Some p.
Proof.
  induction ps as [|q ps IH]; cbn [map find]; intros Hnd Hin.
  - destruct Hin.
  - inversion Hnd as [|x xs Hnotin Hrest]; subst.
    destruct (Z.eqb_spec (Product.id q) (Product.id p)) as [Heq|Hne].
    + destruct Hin as [-> | Hin]; [reflexivity|].
      exfalso. apply Hnotin. rewrite Heq. now apply in_map.
    + destruct Hin as [-> | Hin]; [contradiction|]. now apply IH.
Qed.

Lemma sum_prices_sum_Z (ps : list Product.t) :
  sum_prices ps = sum_Z (map Product.price ps).
Proof.
  unfold sum_prices, sum_Z.
  assert (H : forall l a, fold_left Z.add l a = a + fold_right Z.add 0 l).
  { induction l as [|x l IH]; intro a; cbn [fold_left fold_right].
    - lia.
    - rewrite IH. lia. }
  rewrite H. lia.
Qed.

Lemma sum_Z_permutation (l l' : list Z) :
  Permutation l l' -> sum_Z l = sum_Z l'.
Proof.
  unfold sum_Z. induction 1; cbn [fold_right]; lia.
Qed.

(** The total of the selected products is the sum, over the requested ids,
    of the price each id resolves to. *)
Lemma sum_prices_resolved (ids : list Z) (s : Store) :
  products_pk_unique s -> NoDup ids ->
  (forall i, In i ids -> product_present i s) ->
  sum_prices (products_in ids s) = sum_Z (map (price_at s) ids).
Proof.
  intros Hu Hnd Hall. rewrite sum_prices_sum_Z.
  rewrite <- (sum_Z_permutation _ _
                (Permutation_map (price_at s)
                   (resolved_ids_permutation ids s Hu Hnd Hall))).
  rewrite map_map. f_equal. apply map_ext_in. intros p Hp.
  apply in_products_in in Hp. unfold price_at.
  now rewrite (find_by_pk_unique _ _ Hu (proj1 Hp)).
Qed.

(** X2.  Order creation on integer ids of the key range.  With an
    existing customer and a non-empty list of such ids: if the ids are
    pairwise distinct and all resolve, CreateOrder succeeds and persists one
    order whose total is the exact sum of the prices the ids resolve to; if
    one of them does not resolve it raises the reference error.  A list
    with an id that is no integer raises ValueError instead.  Nothing is
    written in the two failing cases. *)
Lemma CreateOrder_distinct_ids
    (s : Store) (customer_id : Z) (product_ids : list Z) :
  products_pk_unique s ->
  customer_present customer_id s ->
  in_key_range customer_id = true ->
  forallb in_key_range product_ids = true ->
  product_ids <> [] ->
  (NoDup product_ids ->
   (forall i, In i product_ids -> product_present i s) ->
   exists order,
     CreateOrder (Key customer_id) (map Key product_ids) s =
     (inr order, add_order order s) /\
     Order.customer order = customer_id /\
     Permutation (Order.products order) product_ids /\
     Order.total_amount order = sum_Z (map (price_at s) product_ids))
  /\
  ((exists i, In i product_ids /\ ~ product_present i s) ->
   CreateOrder (Key customer_id) (map Key product_ids) s =
   (inl (ValidationError ReferenceError "Some product IDs are invalid."), s))
  /\
  (forall ids : list ID,
      ids <> [] -> forallb is_key ids = false ->
      CreateOrder (Key customer_id) ids s = (inl ValueError, s)).
Proof.
  intros Hu Hc Hr Hp Hne. split; [|split].
  - intros Hnd Hall.
    pose proof (resolved_ids_permutation _ _ Hu Hnd Hall) as Hperm.
    rewrite (CreateOrder_unfold _ _ _ Hr Hp).
    destruct (find (fun c => Customer.id c =? customer_id) (customers s))
      as [c|] eqn:Hfind.
    2:{ destruct (find_customer_some _ _ Hc) as [c Hc']. congruence. }
    destruct product_ids as [|i ids]; [contradiction|]. cbn [is_empty].
    pose proof (Permutation_length Hperm) as Hlen.
    rewrite length_map in Hlen. rewrite Hlen, Nat.eqb_refl.
    eexists. split; [reflexivity|].
    cbn [new_order Order.customer Order.products Order.total_amount].
    apply find_some in Hfind. destruct Hfind as [_ Hid].
    apply Z.eqb_eq in Hid.
    repeat split; try assumption.
    now apply sum_prices_resolved.
  - intros [i [Hi Habs]].
    rewrite (CreateOrder_unfold _ _ _ Hr Hp).
    destruct (find_customer_some _ _ Hc) as [c ->].
    destruct product_ids as [|j ids]; [contradiction|]. cbn [is_empty].
    pose proof (unresolved_id_short _ _ _ Hu Hi Habs) as Hshort.
    destruct (Nat.eqb_spec (List.length (products_in (j :: ids) s))
                           (List.length (j :: ids))); [lia|reflexivity].
  - intros ids Hids Hno. rewrite CreateOrder_cases, Hr.
    destruct (find_customer_some _ _ Hc) as [c ->].
    destruct ids; [contradiction|]. cbn [is_empty]. now rewrite Hno.
Qed.

(** C1, where the code departs from it.  Customer 1 exists, product 10
    exists, and every id of the list [10; 10] resolves to it; CreateOrder
    nevertheless raises the reference error, because the one product
    selected is compared with the two ids received.  The same product
    requested once is accepted, with its price as the total. *)
Theorem CreateOrder_repeated_id_rejected :
  let alice := Customer.Build 1 "Alice" "alice@example.com" None in
  let laptop := Product.Build 10 "Laptop" 85000 10 in
  let s := mkStore [alice] [laptop] [] in
  customer_present 1 s /\
  (forall i, In i [10; 10] -> product_present i s) /\
  CreateOrder (Key 1) [Key 10; Key 10] s =
  (inl (ValidationError ReferenceError "Some product IDs are invalid."), s) /\
  CreateOrder (Key 1) [Key 10] s =
  (inr (Order.Build 1 1 [10] 85000),
   mkStore [alice] [laptop] [Order.Build 1 1 [10] 85000]).
Proof.
  intros alice laptop s. split; [|split; [|split]].
  - exists alice. split; [left|]; reflexivity.
  - intros i [<- | [<- | []]]; exists laptop; (split; [left|]; reflexivity).
  - reflexivity.
  - reflexivity.
Qed.

(** The example of the spec: products 10 and 11 at 850.00 and 500.00 give
    an order of 1350.00. *)
Example CreateOrder_two_products :
  let s := mkStore [Customer.Build 1 "Alice" "alice@example.com" None]
                   [Product.Build 10 "Laptop" 85000 10;
                    Product.Build 11 "Phone" 50000 20] [] in
  outcome (CreateOrder (Key 1) [Key 10; Key 11]) s =
  inr (Order.Build 1 1 [10; 11] 135000).
Proof. reflexivity. Qed.

(** ** BulkCreateCustomers *)

Lemma with_customers_nil (s : Store) : with_customers s [] = s.
Proof. destruct s. unfold with_customers. cbn. now rewrite app_nil_r. Qed.

Lemma with_customers_cons (s : Store) (c : Customer.t) (cs : list Customer.t) :
  with_customers (add_customer c s) cs = with_customers s (c :: cs).
Proof.
  unfold with_customers, add_customer. cbn [customers products orders].
  now rewrite <- app_assoc.
Qed.

(** One entry: created when valid in the current store, refused without a
    write otherwise. *)
Lemma bulk_try_valid (s : Store) (d : CustomerData.t) :
  entry_valid s d = true ->
  bulk_try d s =
  (inr (new_customer s (str_or_empty (CustomerData.name d))
          (str_or_empty (CustomerData.email d)) (CustomerData.phone d)),
   add_customer
     (new_customer s (str_or_empty (CustomerData.name d))
        (str_or_empty (CustomerData.email d)) (CustomerData.phone d)) s).
Proof.
  unfold entry_valid. intro Hv.
  apply andb_prop in Hv. destruct Hv as [Hv Hph].
  apply andb_prop in Hv. destruct Hv as [Hv Hem].
  apply andb_prop in Hv. destruct Hv as [Hn He].
  apply negb_true_iff in Hph, Hem.
  unfold bulk_try, email_exists, bind, get_store, ret.
  rewrite Hn, He. cbn [negb orb]. cbv beta iota.
  now rewrite Hem, Hph.
Qed.

Lemma bulk_try_invalid (s : Store) (d : CustomerData.t) :
  entry_valid s d = false -> exists e, bulk_try d s = (inl e, s).
Proof.
  unfold entry_valid, bulk_try, email_exists, bind, get_store, ret, raise.
  intro Hv.
  destruct (truthy (CustomerData.name d)); cbn [negb orb];
    [|eexists; reflexivity].
  destruct (truthy (CustomerData.email d)); cbn [negb orb];
    [|eexists; reflexivity].
  destruct (existsb _ (customers s)); [eexists; reflexivity|].
  destruct (phone_rejected (CustomerData.phone d)); [eexists; reflexivity|].
  discriminate.
Qed.

Lemma bulk_loop_cons (d : CustomerData.t) (ds : list CustomerData.t)
    (cs0 : list Customer.t) (es0 : list error) (s : Store) :
  bulk_loop (d :: ds) cs0 es0 s =
  match bulk_try d s with
  | (inr c, s1) => bulk_loop ds (cs0 ++ [c]) es0 s1
  | (inl e, s1) => bulk_loop ds cs0 (es0 ++ [e]) s1
  end.
Proof.
  cbn [bulk_loop]. unfold bind at 1. unfold attempt.
  destruct (bulk_try d s) as [[e|c] s1]; reflexivity.
Qed.

(** The loop never raises: it returns the customers it created and the
    errors it caught, one or the other for each entry, and has appended the
    created customers to the customer table and changed nothing else. *)
Lemma bulk_loop_run (ds : list CustomerData.t) :
  forall s, exists cs es,
    (forall cs0 es0,
        bulk_loop ds cs0 es0 s =
        (inr ((cs0 ++ cs)%list, (es0 ++ es)%list), with_customers s cs)) /\
    (List.length cs + List.length es = List.length ds)%nat.
Proof.
  induction ds as [|d ds IH]; intro s.
  - exists [], []. split; [|reflexivity]. intros cs0 es0.
    cbn [bulk_loop]. unfold ret. now rewrite !app_nil_r, with_customers_nil.
  - destruct (entry_valid s d) eqn:Hv.
    + pose proof (bulk_try_valid s d Hv) as Htry.
      set (c := new_customer s _ _ _) in Htry.
      destruct (IH (add_customer c s)) as [cs [es [Hrun Hlen]]].
      exists (c :: cs), es. split.
      * intros cs0 es0. rewrite bulk_loop_cons, Htry, Hrun.
        now rewrite <- app_assoc, with_customers_cons.
      * cbn [List.length]. lia.
    + destruct (bulk_try_invalid s d Hv) as [e Htry].
      destruct (IH s) as [cs [es [Hrun Hlen]]].
      exists cs, (e :: es). split.
      * intros cs0 es0. rewrite bulk_loop_cons, Htry, Hrun.
        now rewrite <- app_assoc.
      * cbn [List.length]. lia.
Qed.

Lemma BulkCreateCustomers_loop (ds : list CustomerData.t) (s : Store) :
  BulkCreateCustomers ds s = bulk_loop ds [] [] s.
Proof.
  unfold BulkCreateCustomers, atomic.
  destruct (bulk_loop_run ds s) as [cs [es [Hrun _]]]. now rewrite Hrun.
Qed.







(** The loop over a concatenation is the loop over the first part followed
    by the loop over the second, started in the store and with the lists
    the first one ended with. *)
Lemma bulk_loop_app (a b : list CustomerData.t) :
  forall cs0 es0 s,
    bulk_loop (a ++ b) cs0 es0 s =
    match bulk_loop a cs0 es0 s with
    | (inr (cs, es), s') => bulk_loop b cs es s'
    | (inl e, s') => (inl e, s')
    end.
Proof.
  induction a as [|d a IH]; intros cs0 es0 s.
  - reflexivity.
  - rewrite <- app_comm_cons, !bulk_loop_cons.
    destruct (bulk_try d s) as [[e|c] s1]; apply IH.
Qed.

(** A property of stores that every entry preserves is preserved by the
    whole call. *)
Lemma bulk_loop_preserves (P : Store -> Prop) :
  (forall d s, P s -> P (store_after (bulk_try d) s)) ->
  forall ds cs0 es0 s, P s -> P (store_after (bulk_loop ds cs0 es0) s).
Proof.
  intros Hstep. induction ds as [|d ds IH]; intros cs0 es0 s Hs.
  - exact Hs.
  - unfold store_after. rewrite bulk_loop_cons.
    specialize (Hstep d s Hs). unfold store_after in Hstep.
    destruct (bulk_try d s) as [[e|c] s1]; now apply IH.
Qed.

Lemma bulk_try_emails_unique (d : CustomerData.t) (s : Store) :
  emails_unique s -> emails_unique (store_after (bulk_try d) s).
Proof.
  intro Hu. unfold store_after.
  destruct (entry_valid s d) eqn:Hv.
  - rewrite (bulk_try_valid s d Hv). unfold emails_unique.
    cbn [snd add_customer customers]. rewrite map_app. cbn [map].
    apply NoDup_rev in Hu. rewrite <- rev_involutive. apply NoDup_rev.
    rewrite rev_app_distr. cbn [rev app]. constructor; [|assumption].
    rewrite <- in_rev. intro Hin. apply in_map_iff in Hin.
    destruct Hin as [c [Hc Hin]].
    unfold entry_valid in Hv.
    assert (Hex : existsb (has_email (str_or_empty (CustomerData.email d)))
                    (customers s) = true).
    { apply email_exists_true. now exists c. }
    rewrite Hex in Hv. cbn [negb] in Hv.
    now rewrite andb_false_r in Hv.
  - destruct (bulk_try_invalid s d Hv) as [e ->]. exact Hu.
Qed.

(** An entry whose email is taken in the current store is refused: by the
    check on required fields when its name is missing, by the check on the
    email otherwise. *)
Lemma bulk_try_email_taken (s : Store) (d : CustomerData.t) :
  truthy (CustomerData.email d) = true ->
  existsb (has_email (str_or_empty (CustomerData.email d))) (customers s) = true ->
  bulk_try d s =
  (inl (if truthy (CustomerData.name d)
        then ValidationError DuplicateError
               ("Email already exists: " ++ str_or_empty (CustomerData.email d))
        else ValidationError RequiredFieldError "Name and Email are required."),
   s).
Proof.
  intros Hd Htaken.
  unfold bulk_try, email_exists, bind, get_store, ret, raise.
  rewrite Hd.
  destruct (truthy (CustomerData.name d)); cbn [negb orb]; [|reflexivity].
  cbv beta iota. now rewrite Htaken.
Qed.

(** C10, as stated, fails: in the batch of Ann followed by an entry with
    Ann's email and an empty name, Ann is created and the later entry is
    refused, but by the check on name and email, which comes first, not with
    the duplicate-email error. *)
Lemma bulk_later_duplicate_counterexample :
  let d1 := CustomerData.Build (Some "Ann") (Some "ann@example.com") None in
  let d2 := CustomerData.Build (Some EmptyString) (Some "ann@example.com") None in
  CustomerData.email d2 = CustomerData.email d1 /\
  BulkCreateCustomers [d1; d2] empty_store =
  (inr ([Customer.Build 1 "Ann" "ann@example.com" None],
        [ValidationError RequiredFieldError "Name and Email are required."]),
   mkStore [Customer.Build 1 "Ann" "ann@example.com" None] [] []) /\
  ~ (exists cs es msg,
        outcome (BulkCreateCustomers [d1; d2]) empty_store = inr (cs, es) /\
        In (ValidationError DuplicateError msg) es).
Proof.
  intros d1 d2. split; [reflexivity|]. split; [reflexivity|].
  intros [cs [es [msg [Hrun Hin]]]]. vm_compute in Hrun.
  injection Hrun as <- <-. destruct Hin as [Hin | []]. discriminate.
Qed.

(** C10, amended.  In every BulkCreateCustomers call, if an entry is
    created in its turn, every later entry of the batch with the same email
    is refused when its turn comes, without a write: with the
    duplicate-email error when its name is given, and with the error on
    required fields when its name is missing or empty; the error is among
    those the call returns.  The check sees the rows persisted earlier in
    the batch, and the call keeps the emails of the customer table pairwise
    distinct. *)
Theorem bulk_later_duplicate_refused
    (s : Store) (pre mid post : list CustomerData.t)
    (d1 d2 : CustomerData.t) :
  let s0 := store_after (bulk_loop pre [] []) s in
  let s2 := store_after (bulk_loop (pre ++ d1 :: mid) [] []) s in
  let e := if truthy (CustomerData.name d2)
           then ValidationError DuplicateError
                  ("Email already exists: " ++ str_or_empty (CustomerData.email d2))
           else ValidationError RequiredFieldError
                  "Name and Email are required." in
  (exists c, outcome (bulk_try d1) s0 = inr c) ->
  CustomerData.email d2 = CustomerData.email d1 ->
  bulk_try d2 s2 = (inl e, s2) /\
  (exists cs es,
      outcome (BulkCreateCustomers (pre ++ d1 :: mid ++ d2 :: post)) s =
      inr (cs, es) /\ In e es) /\
  (emails_unique s ->
   emails_unique
     (store_after (BulkCreateCustomers (pre ++ d1 :: mid ++ d2 :: post)) s)).
Proof.
  intros s0 s2 e [c Hc] Heq.
  (* the entry created in its turn is valid in the store it meets *)
  assert (Hv : entry_valid s0 d1 = true).
  { destruct (entry_valid s0 d1) eqn:Hv; [reflexivity|].
    destruct (bulk_try_invalid s0 d1 Hv) as [e' He'].
    unfold outcome in Hc. rewrite He' in Hc. discriminate. }
  pose proof (bulk_try_valid s0 d1 Hv) as Htry.
  set (c1 := new_customer s0 _ _ _) in Htry.
  assert (Hd1 : truthy (CustomerData.email d1) = true).
  { unfold entry_valid in Hv.
    destruct (truthy (CustomerData.email d1)); [reflexivity|].
    now rewrite andb_false_r in Hv. }
  (* the stores the loop goes through *)
  destruct (bulk_loop_run pre s) as [csa [esa [Hpre _]]].
  assert (Hs0 : s0 = with_customers s csa).
  { unfold s0, store_after. now rewrite Hpre. }
  destruct (bulk_loop_run mid (add_customer c1 s0)) as [csm [esm [Hmid _]]].
  assert (Hfirst : bulk_loop (pre ++ d1 :: mid) [] [] s =
                   (inr ((csa ++ [c1]) ++ csm, esa ++ esm)%list,
                    with_customers (add_customer c1 s0) csm)).
  { rewrite bulk_loop_app, Hpre, bulk_loop_cons. cbn [app].
    rewrite <- Hs0, Htry. apply Hmid. }
  assert (Hs2 : s2 = with_customers (add_customer c1 s0) csm).
  { unfold s2, store_after. now rewrite Hfirst. }
  (* the later entry finds the email taken *)
  assert (Htaken : existsb (has_email (str_or_empty (CustomerData.email d2)))
                     (customers s2) = true).
  { apply email_exists_true. exists c1. split.
    - rewrite Hs2. cbn [with_customers add_customer customers].
      apply in_or_app. left. apply in_or_app. right. now left.
    - now rewrite Heq. }
  assert (Hd2 : bulk_try d2 s2 = (inl e, s2)).
  { apply bulk_try_email_taken; [now rewrite Heq|exact Htaken]. }
  split; [exact Hd2|]. split.
  - destruct (bulk_loop_run post s2) as [csp [esp [Hpost _]]].
    exists (((csa ++ [c1]) ++ csm) ++ csp)%list,
           (((esa ++ esm) ++ [e]) ++ esp)%list.
    unfold outcome. rewrite BulkCreateCustomers_loop.
    replace (pre ++ d1 :: mid ++ d2 :: post)%list
      with ((pre ++ d1 :: mid) ++ d2 :: post)%list
      by (now rewrite <- app_assoc).
    rewrite bulk_loop_app, Hfirst, bulk_loop_cons, <- Hs2, Hd2, Hpost.
    split; [reflexivity|].
    apply in_or_app. left. apply in_or_app. right. now left.
  - intro Hu. unfold store_after. rewrite BulkCreateCustomers_loop.
    exact (bulk_loop_preserves emails_unique bulk_try_emails_unique
             _ [] [] s Hu).
Qed.

Lemma bulk_later_duplicate_refused_witness :
  let ann := CustomerData.Build (Some "Ann") (Some "ann@example.com") None in
  let bob := CustomerData.Build (Some "Bob") (Some "bob@example.com") None in
  let ann2 := CustomerData.Build (Some "Anna") (Some "ann@example.com") None in
  (exists c, outcome (bulk_try ann) empty_store = inr c) /\
  CustomerData.email ann2 = CustomerData.email ann /\
  exists cs es,
    outcome (BulkCreateCustomers [ann; bob; ann2]) empty_store = inr (cs, es) /\
    In (ValidationError DuplicateError "Email already exists: ann@example.com")
       es.
Proof.
  intros ann bob ann2.
  assert (H1 : exists c, outcome (bulk_try ann) empty_store = inr c).
  { eexists. reflexivity. }
  split; [exact H1|]. split; [reflexivity|].
  exact (proj1 (proj2 (bulk_later_duplicate_refused
                         empty_store [] [bob] [] ann ann2 H1 eq_refl))).
Defined.

(** ** Reachable stores and the seed routine *)

(** C7. From the empty store, the seed routine run twice ends normally both
    times and leaves exactly 3 customers, 3 products and 2 orders: the first
    run creates the 3 customers, the 3 products and one order, the second
    run leaves customers and products as they are and adds one more order. *)
Theorem seed_twice_counts :
  let s1 := store_after run empty_store in
  let s2 := store_after run s1 in
  outcome run empty_store = inr tt /\
  outcome run s1 = inr tt /\
  List.length (customers s1) = 3%nat /\
  List.length (products s1) = 3%nat /\
  List.length (orders s1) = 1%nat /\
  customers s2 = customers s1 /\
  products s2 = products s1 /\
  List.length (customers s2) = 3%nat /\
  List.length (products s2) = 3%nat /\
  List.length (orders s2) = 2%nat /\
  (exists o, orders s2 = (orders s1 ++ [o])%list).
Proof.
  intros s1 s2. vm_compute.
  repeat split; eexists; reflexivity.
Qed.

(** The mutations alone keep every stored phone absent, empty or matching:
    both customer paths check the pattern before they write. *)
Lemma mutation_phones_ok (s s' : Store) :
  mutation s s' -> phones_ok s -> phones_ok s'.
Proof.
  intros Hm Hok. destruct Hm; unfold store_after.
  - destruct (existsb (has_email email) (customers s)) eqn:Hex.
    + now rewrite (CreateCustomer_taken s name email phone Hex).
    + apply email_exists_false in Hex.
      rewrite (CreateCustomer_fresh s name email phone Hex).
      destruct (phone_rejected phone) eqn:Hph; [exact Hok|].
      unfold phones_ok. cbn [snd add_customer customers].
      apply Forall_app. split; [exact Hok|]. constructor; [|constructor].
      exact Hph.
  - rewrite BulkCreateCustomers_loop.
    apply (bulk_loop_preserves phones_ok); [|exact Hok].
    intros d s0 Hs0. unfold store_after.
    destruct (entry_valid s0 d) eqn:Hv.
    + rewrite (bulk_try_valid s0 d Hv). unfold phones_ok.
      cbn [snd add_customer customers].
      apply Forall_app. split; [exact Hs0|]. constructor; [|constructor].
      cbn [new_customer Customer.phone]. unfold entry_valid in Hv.
      apply andb_prop in Hv. destruct Hv as [_ Hph].
      now apply negb_true_iff in Hph.
    + destruct (bulk_try_invalid s0 d Hv) as [e ->]. exact Hs0.
  - destruct (createProduct_effect s name price stock)
      as [[e ->] | [stock' ->]]; exact Hok.
  - destruct (CreateOrder_effect s customer_id product_ids)
      as [[e ->] | [c [ps [_ [_ [_ ->]]]]]]; exact Hok.
Qed.

(** X9.  In every store reached from the empty one by mutation calls alone,
    the bulk calls being on entries whose name, email and phone are strings
    or missing, every customer's phone is absent, empty, or matches the
    phone pattern: CreateCustomer and BulkCreateCustomers check a phone
    that is a non-empty string before they write, and no other mutation
    writes a customer. *)
Lemma reachable_by_mutations_phones_ok (s : Store) :
  reachable false s -> phones_ok s.
Proof.
  induction 1 as [|s s' _ IH Hm|s Hseed _ _].
  - constructor.
  - exact (mutation_phones_ok s s' Hm IH).
  - discriminate.
Qed.

(** C4, where the code departs from it.  The store the seed routine leaves
    when run on the empty store is reachable by the program's operations,
    and in it the customer Alice carries the phone 12345: a phone that is
    present, that the pattern does not match, and that CreateCustomer
    refuses with the format error. *)
Theorem seed_phone_outside_pattern :
  let s := store_after run empty_store in
  let alice := Customer.Build 1 "Alice" "alice@example.com" (Some "12345") in
  reachable true s /\
  In alice (customers s) /\
  re_match_phone "12345" = false /\
  ~ phones_ok s /\
  outcome (CreateCustomer "Dan" "dan@example.com" (Some "12345")) s =
  inl (ValidationError FormatError "Invalid phone format.").
Proof.
  intros s alice.
  assert (Hin : In alice (customers s)) by (vm_compute; now left).
  split; [|split; [|split; [|split]]].
  - apply reachable_seed; [reflexivity|constructor].
  - exact Hin.
  - reflexivity.
  - intro Hok. unfold phones_ok in Hok. rewrite Forall_forall in Hok.
    specialize (Hok alice Hin). vm_compute in Hok. discriminate.
  - reflexivity.
Qed.

(** * Further properties of the handlers *)

Lemma filter_none {A} (f : A -> bool) (l : list A) :
  (forall x, In x l -> f x = false) -> filter f l = [].
Proof.
  induction l as [|a l IH]; intro H; [reflexivity|]. cbn [filter].
  rewrite (H a (or_introl eq_refl)). apply IH.
  intros x Hx. apply H. now right.
Qed.

(** ** What one call writes *)

(** X3.  A single-entity mutation either raises and leaves the store as it was,
    or returns the row it has appended to its own table (CreateProduct: the
    instance that holds it, with the price as given), above all keys of
    that table, and leaves the two other tables as they were. *)
Theorem single_mutation_effect (s : Store) :
  (forall name email phone,
      (exists e, CreateCustomer name email phone s = (inl e, s)) \/
      (exists c msg,
          CreateCustomer name email phone s = (inr (c, msg), add_customer c s) /\
          forall c', In c' (customers s) -> Customer.id c' < Customer.id c))
  /\
  (forall name price stock,
      (exists e, createProduct name price stock s = (inl e, s)) \/
      (exists p,
          createProduct name price stock s =
          (inr (mkInstance p price), add_product p s) /\
          forall p', In p' (products s) -> Product.id p' < Product.id p))
  /\
  (forall customer_id product_ids,
      (exists e, CreateOrder customer_id product_ids s = (inl e, s)) \/
      (exists o,
          CreateOrder customer_id product_ids s = (inr o, add_order o s) /\
          forall o', In o' (orders s) -> Order.id o' < Order.id o)).
Proof.
  split; [|split].
  - intros name email phone.
    destruct (existsb (has_email email) (customers s)) eqn:Hex.
    + left. eexists. now apply CreateCustomer_taken.
    + apply email_exists_false in Hex.
      rewrite (CreateCustomer_fresh s name email phone Hex).
      destruct (phone_rejected phone); [left; eexists; reflexivity|].
      right. do 2 eexists. split; [reflexivity|].
      intros c' Hin. cbn [new_customer Customer.id].
      apply fresh_id_above. now apply in_map.
  - intros name price stock.
    destruct (createProduct_effect s name price stock)
      as [[e He] | [stock' Hrun]].
    + left. now exists e.
    + right. eexists. split; [exact Hrun|].
      intros p' Hin. cbn [new_product Product.id]. apply fresh_id_above.
      now apply in_map.
  - intros customer_id product_ids.
    destruct (CreateOrder_effect s customer_id product_ids)
      as [[e He] | [c [ps [_ [_ [_ Hrun]]]]]].
    + left. now exists e.
    + right. eexists. split; [exact Hrun|].
      intros o' Hin. cbn [new_order Order.id]. apply fresh_id_above.
      now apply in_map.
Qed.

(** ** Mutations followed by queries *)

Lemma resolvers_read_only (s : Store) :
  resolve_customers s = (inr (customers s), s) /\
  resolve_products s = (inr (products s), s) /\
  resolve_orders s = (inr (orders s), s).
Proof. repeat split. Qed.

(** X4.  A customer that CreateCustomer has created is the last one the
    customers query then lists, after the former ones, and its email is
    taken from then on: any further CreateCustomer with that email raises
    the duplicate-email error, whatever the name and the phone. *)
Theorem CreateCustomer_then_query
    (s s' : Store) (name email : string) (phone : option string)
    (c : Customer.t) (msg : string) :
  CreateCustomer name email phone s = (inr (c, msg), s') ->
  outcome resolve_customers s' = inr (customers s ++ [c])%list /\
  Customer.name c = name /\ Customer.email c = email /\
  Customer.phone c = phone /\
  forall name' phone',
    CreateCustomer name' email phone' s' =
    (inl (ValidationError DuplicateError "Email already exists."), s').
Proof.
  intro Hrun.
  destruct (existsb (has_email email) (customers s)) eqn:Hex.
  - rewrite (CreateCustomer_taken s name email phone Hex) in Hrun.
    discriminate.
  - apply email_exists_false in Hex.
    rewrite (CreateCustomer_fresh s name email phone Hex) in Hrun.
    destruct (phone_rejected phone); [discriminate|].
    injection Hrun as <- _ <-.
    repeat split.
    intros name' phone'. apply CreateCustomer_taken.
    cbn [add_customer customers]. rewrite existsb_app. cbn [existsb].
    unfold has_email at 2. cbn [new_customer Customer.email].
    rewrite String.eqb_refl. now rewrite orb_true_r.
Qed.

Lemma CreateCustomer_then_query_witness :
  let s := mkStore [Customer.Build 1 "Alice" "alice@example.com" None] [] [] in
  let bob := Customer.Build 2 "Bob" "bob@example.com" (Some "123-456-7890") in
  let s' := add_customer bob s in
  CreateCustomer "Bob" "bob@example.com" (Some "123-456-7890") s =
  (inr (bob, "Customer created successfully!"), s') /\
  outcome resolve_customers s' = inr (customers s ++ [bob])%list /\
  CreateCustomer "Robert" "bob@example.com" None s' =
  (inl (ValidationError DuplicateError "Email already exists."), s').
Proof.
  intros s bob s'.
  assert (Hrun : CreateCustomer "Bob" "bob@example.com" (Some "123-456-7890") s
                 = (inr (bob, "Customer created successfully!"), s'))
    by reflexivity.
  split; [exact Hrun|].
  destruct (CreateCustomer_then_query s s' _ _ _ bob _ Hrun)
    as [Hq [_ [_ [_ Hdup]]]].
  split; [exact Hq|]. apply Hdup.
Defined.



(** ** The invariant of the store *)

Lemma NoDup_snoc {A} (l : list A) (a : A) :
  NoDup l -> ~ In a l -> NoDup (l ++ [a]).
Proof.
  intros Hnd Hnotin. apply NoDup_rev in Hnd.
  rewrite <- (rev_involutive (l ++ [a])). apply NoDup_rev.
  rewrite rev_app_distr. cbn [rev app]. constructor; [|assumption].
  now rewrite <- in_rev.
Qed.

Lemma NoDup_snoc_fresh (ids : list Z) :
  NoDup ids -> NoDup (ids ++ [fresh_id ids]).
Proof.
  intro Hnd. apply NoDup_snoc; [assumption|].
  intro Hin. apply fresh_id_above in Hin. lia.
Qed.

Lemma find_app_some {A} (f : A -> bool) (l l' : list A) (x : A) :
  find f l = Some x -> find f (l ++ l') = Some x.
Proof.
  induction l as [|a l IH]; cbn [find app]; [discriminate|].
  destruct (f a); [trivial|exact IH].
Qed.

Lemma price_at_add_product (s : Store) (p : Product.t) (i : Z) :
  product_present i s -> price_at (add_product p s) i = price_at s i.
Proof.
  intros [q [Hin Hid]]. unfold price_at. cbn [add_product products].
  destruct (find (fun p0 => Product.id p0 =? i) (products s)) as [q'|] eqn:E.
  - now rewrite (find_app_some _ _ _ _ E).
  - exfalso. pose proof (find_none _ _ E q Hin) as Hn. cbn in Hn.
    apply Z.eqb_neq in Hn. contradiction.
Qed.

(** A sound order stays sound when rows are appended to any table. *)
Lemma order_sound_add_customer (s : Store) (c : Customer.t) (o : Order.t) :
  order_sound s o -> order_sound (add_customer c s) o.
Proof.
  intros [[c0 [Hin Hid]] [Hne [Hall Htot]]]. repeat split; try assumption.
  exists c0. split; [|assumption]. cbn. apply in_or_app. now left.
Qed.

Lemma order_sound_add_product (s : Store) (p : Product.t) (o : Order.t) :
  order_sound s o -> order_sound (add_product p s) o.
Proof.
  intros [Hc [Hne [Hall Htot]]]. repeat split; try assumption.
  - intros i Hi. destruct (Hall i Hi) as [q [Hin Hid]].
    exists q. split; [|assumption]. cbn. apply in_or_app. now left.
  - rewrite Htot. f_equal. apply map_ext_in. intros i Hi. symmetry.
    apply price_at_add_product. now apply Hall.
Qed.

Lemma order_sound_add_order (s : Store) (o' o : Order.t) :
  order_sound s o -> order_sound (add_order o' s) o.
Proof. intro H. exact H. Qed.

Lemma store_sound_add_customer (s : Store) (name email : string)
    (phone : option string) :
  ~ email_taken email s -> store_sound s ->
  store_sound (add_customer (new_customer s name email phone) s).
Proof.
  intros Hfree [Hem [[Hc [Hp Ho]] Hord]]. split; [|split; [split; [|split]|]].
  - unfold emails_unique. cbn [add_customer customers]. rewrite map_app.
    apply NoDup_snoc; [assumption|]. cbn [map new_customer Customer.email].
    intro Hin. apply Hfree. apply in_map_iff in Hin.
    destruct Hin as [c [Hce Hin]]. now exists c.
  - cbn [add_customer customers]. rewrite map_app.
    now apply NoDup_snoc_fresh.
  - assumption.
  - assumption.
  - cbn [add_customer orders]. eapply Forall_impl; [|exact Hord].
    intros o. apply order_sound_add_customer.
Qed.

Lemma store_sound_add_product (s : Store) (name : string) (price stock : Z) :
  store_sound s -> store_sound (add_product (new_product s name price stock) s).
Proof.
  intros [Hem [[Hc [Hp Ho]] Hord]]. split; [|split; [split; [|split]|]].
  - assumption.
  - assumption.
  - cbn [add_product products]. rewrite map_app. now apply NoDup_snoc_fresh.
  - assumption.
  - cbn [add_product orders]. eapply Forall_impl; [|exact Hord].
    intros o. apply order_sound_add_product.
Qed.

Lemma store_sound_add_order (s : Store) (o : Order.t) :
  Order.id o = fresh_id (map Order.id (orders s)) ->
  order_sound s o -> store_sound s -> store_sound (add_order o s).
Proof.
  intros Hid Hnew [Hem [[Hc [Hp Ho]] Hord]]. split; [|split; [split; [|split]|]].
  - assumption.
  - assumption.
  - assumption.
  - cbn [add_order orders]. rewrite map_app. cbn [map]. rewrite Hid.
    now apply NoDup_snoc_fresh.
  - cbn [add_order orders]. apply Forall_app. split.
    + eapply Forall_impl; [|exact Hord]. intros o'. apply order_sound_add_order.
    + constructor; [|constructor]. now apply order_sound_add_order.
Qed.

(** The total computed from selected rows of the product table is the sum
    of the prices their keys resolve to. *)
Lemma sum_prices_of_rows (s : Store) (ps : list Product.t) :
  products_pk_unique s -> incl ps (products s) ->
  sum_prices ps = sum_Z (map (price_at s) (map Product.id ps)).
Proof.
  intros Hu Hincl. rewrite sum_prices_sum_Z, map_map. f_equal.
  apply map_ext_in. intros p Hp. unfold price_at.
  now rewrite (find_by_pk_unique _ _ Hu (Hincl p Hp)).
Qed.

Lemma new_order_sound (s : Store) (customer : Customer.t)
    (ps : list Product.t) :
  products_pk_unique s -> In customer (customers s) ->
  ps <> [] -> incl ps (products s) ->
  order_sound s (new_order s customer ps).
Proof.
  intros Hu Hc Hne Hincl. unfold order_sound.
  cbn [new_order Order.customer Order.products Order.total_amount].
  split; [|split; [|split]].
  - now exists customer.
  - destruct ps; [contradiction|discriminate].
  - intros i Hi. apply in_map_iff in Hi. destruct Hi as [p [Hid Hp]].
    exists p. split; [now apply Hincl|assumption].
  - now apply sum_prices_of_rows.
Qed.

Lemma mutation_store_sound (s s' : Store) :
  mutation s s' -> store_sound s -> store_sound s'.
Proof.
  intros Hm Hs. destruct Hm; unfold store_after.
  - destruct (existsb (has_email email) (customers s)) eqn:Hex.
    + now rewrite (CreateCustomer_taken s name email phone Hex).
    + apply email_exists_false in Hex.
      rewrite (CreateCustomer_fresh s name email phone Hex).
      destruct (phone_rejected phone); [exact Hs|].
      now apply store_sound_add_customer.
  - rewrite BulkCreateCustomers_loop.
    apply (bulk_loop_preserves store_sound); [|exact Hs].
    intros d s0 Hs0. unfold store_after.
    destruct (entry_valid s0 d) eqn:Hv.
    + rewrite (bulk_try_valid s0 d Hv). cbn [snd].
      apply store_sound_add_customer; [|exact Hs0].
      apply email_exists_false. unfold entry_valid in Hv.
      apply andb_prop in Hv. destruct Hv as [Hv _].
      apply andb_prop in Hv. destruct Hv as [_ Hv].
      now apply negb_true_iff in Hv.
    + destruct (bulk_try_invalid s0 d Hv) as [e ->]. exact Hs0.
  - destruct (createProduct_effect s name price stock)
      as [[e ->] | [stock' ->]]; [exact Hs|].
    now apply store_sound_add_product.
  - destruct (CreateOrder_effect s customer_id product_ids)
      as [[e ->] | [c [ps [Hc [Hne [Hincl ->]]]]]]; [exact Hs|].
    cbn [snd]. apply store_sound_add_order; [reflexivity| |exact Hs].
    apply new_order_sound; try assumption. apply Hs.
Qed.

(** *** Sequencing and the invariant *)

Lemma bind_preserves {A B} (P : Store -> Prop) (m : M A) (k : A -> M B)
    (s : Store) :
  P (store_after m s) ->
  (forall a s1, P s1 -> P (store_after (k a) s1)) ->
  P (store_after (bind m k) s).
Proof.
  unfold store_after, bind. intros Hm Hk.
  destruct (m s) as [[e|a] s1]; [exact Hm|]. now apply Hk.
Qed.

Lemma for_each_preserves {A} (P : Store -> Prop) (body : A -> M unit) :
  (forall x s, P s -> P (store_after (body x) s)) ->
  forall l s, P s -> P (store_after (for_each body l) s).
Proof.
  intros Hbody. induction l as [|x l IH]; intros s Hs; [exact Hs|].
  cbn [for_each]. apply bind_preserves; [now apply Hbody|].
  intros _ s1. apply IH.
Qed.

(** *** The steps of the seed routine *)

Lemma Customer_get_or_create_cases (email name phone : string) (s : Store) :
  Customer_get_or_create email name phone s =
  match customers_with_email email s with
  | [] => (inr (new_customer s name email (Some phone), true),
           add_customer (new_customer s name email (Some phone)) s)
  | [c] => (inr (c, false), s)
  | _ :: _ :: _ => (inl MultipleObjectsReturned, s)
  end.
Proof.
  unfold Customer_get_or_create, customers_with_email, bind, get_store.
  destruct (filter (has_email email) (customers s)) as [|c [|c' l]];
    reflexivity.
Qed.

Lemma Product_get_or_create_cases (name : string) (price stock : Z)
    (s : Store) :
  Product_get_or_create name price stock s =
  match products_named name s with
  | [] => (inr (new_product s name price stock, true),
           add_product (new_product s name price stock) s)
  | [p] => (inr (p, false), s)
  | _ :: _ :: _ => (inl MultipleObjectsReturned, s)
  end.
Proof.
  unfold Product_get_or_create, products_named, bind, get_store.
  destruct (filter _ (products s)) as [|p [|p' l]]; reflexivity.
Qed.

Lemma customers_with_email_nil (email : string) (s : Store) :
  customers_with_email email s = [] -> ~ email_taken email s.
Proof.
  intros Hnil [c [Hin Hc]].
  assert (H : In c (customers_with_email email s)).
  { apply filter_In. split; [assumption|]. now apply String.eqb_eq. }
  rewrite Hnil in H. destruct H.
Qed.

Lemma first_by_pk_least (cs : list Customer.t) :
  forall c0,
    In (first_by_pk c0 cs) (c0 :: cs) /\
    forall c, In c (c0 :: cs) ->
              Customer.id (first_by_pk c0 cs) <= Customer.id c.
Proof.
  unfold first_by_pk. induction cs as [|c1 cs IH]; intro c0; cbn [fold_left].
  - split; [now left|]. intros c [<- | []]. lia.
  - destruct (Z.ltb_spec (Customer.id c1) (Customer.id c0)) as [Hlt|Hge].
    + destruct (IH c1) as [Hin Hle]. split.
      * right. exact Hin.
      * intros c [<- | Hc]; [|now apply Hle].
        specialize (Hle c1 (or_introl eq_refl)). lia.
    + destruct (IH c0) as [Hin Hle]. split.
      * destruct Hin as [<- | Hin]; [now left|right; now right].
      * intros c [<- | [<- | Hc]].
        -- apply Hle. now left.
        -- specialize (Hle c0 (or_introl eq_refl)). lia.
        -- apply Hle. now right.
Qed.

Lemma seed_order_writes (s : Store) (customer : Customer.t)
    (ps : list Product.t) :
  (order <- Order_create customer 0 ;;
   order <- Order_products_set order ps ;;
   Order_save (set_total_amount (sum_prices ps) order)) s =
  (inr tt, add_order (new_order s customer ps) s).
Proof.
  unfold Order_create, Order_products_set, Order_save, bind, get_store,
    modify, ret, set_total_amount.
  cbn [Order.id Order.customer Order.products Order.total_amount].
  set (o := Order.Build (fresh_id (map Order.id (orders s)))
                        (Customer.id customer) [] 0).
  change (fresh_id (map Order.id (orders s))) with (Order.id o).
  rewrite (update_order_last s o) by reflexivity.
  cbn [Order.id Order.customer Order.products Order.total_amount].
  set (o1 := Order.Build (Order.id o) (Order.customer o) (map Product.id ps)
                         (Order.total_amount o)).
  change (Order.id o) with (Order.id o1) at 1.
  rewrite (update_order_last s o1) by reflexivity.
  reflexivity.
Qed.

Lemma seed_orders_unfold (s : Store) :
  seed_orders s =
  match customers s, products s with
  | [], _ => (inr tt, s)
  | _, [] => (inr tt, s)
  | c0 :: cs, _ :: _ =>
      (inr tt,
       add_order (new_order s (first_by_pk c0 cs) (firstn 2 (products s))) s)
  end.
Proof.
  unfold seed_orders. unfold bind at 1. unfold get_store at 1.
  destruct (customers s) as [|c0 cs] eqn:Hc; [reflexivity|].
  destruct (products s) as [|p0 ps] eqn:Hp; [reflexivity|].
  rewrite <- Hp. apply seed_order_writes.
Qed.

Lemma Customer_get_or_create_sound (email name phone : string) (s : Store) :
  store_sound s ->
  store_sound (store_after (Customer_get_or_create email name phone) s).
Proof.
  intro Hs. unfold store_after. rewrite Customer_get_or_create_cases.
  destruct (customers_with_email email s) as [|c [|c' l]] eqn:E;
    try exact Hs.
  cbn [snd]. apply store_sound_add_customer; [|exact Hs].
  now apply customers_with_email_nil.
Qed.

Lemma Product_get_or_create_sound (name : string) (price stock : Z)
    (s : Store) :
  store_sound s ->
  store_sound (store_after (Product_get_or_create name price stock) s).
Proof.
  intro Hs. unfold store_after. rewrite Product_get_or_create_cases.
  destruct (products_named name s) as [|p [|p' l]]; try exact Hs.
  now apply store_sound_add_product.
Qed.

Lemma firstn_incl {A} (n : nat) (l : list A) : incl (firstn n l) l.
Proof.
  intros x Hx. rewrite <- (firstn_skipn n l). apply in_or_app. now left.
Qed.

Lemma seed_orders_sound (s : Store) :
  store_sound s -> store_sound (store_after seed_orders s).
Proof.
  intro Hs. unfold store_after. rewrite seed_orders_unfold.
  destruct (customers s) as [|c0 cs] eqn:Hc; [exact Hs|].
  destruct (products s) as [|p0 ps] eqn:Hp; [exact Hs|].
  cbn [snd]. apply store_sound_add_order; [reflexivity| |exact Hs].
  apply new_order_sound.
  - apply Hs.
  - rewrite Hc. apply first_by_pk_least.
  - discriminate.
  - rewrite <- Hp. apply firstn_incl.
Qed.

Lemma run_store_sound (s : Store) :
  store_sound s -> store_sound (store_after run s).
Proof.
  intro Hs. unfold run.
  apply bind_preserves.
  - unfold seed_customers. apply for_each_preserves; [|exact Hs].
    intros [[name email] phone] s0 Hs0.
    apply bind_preserves; [now apply Customer_get_or_create_sound|].
    intros _ s1 Hs1. exact Hs1.
  - intros _ s1 Hs1. apply bind_preserves.
    + unfold seed_products. apply for_each_preserves; [|exact Hs1].
      intros [[name price] stock] s0 Hs0.
      apply bind_preserves; [now apply Product_get_or_create_sound|].
      intros _ s2 Hs2. exact Hs2.
    + intros _ s2 Hs2. now apply seed_orders_sound.
Qed.

(** X10.  In every store the program reaches from the empty one, by mutations and
    by the seed routine in any order, the emails of the customers are
    pairwise distinct, the primary keys of each table are pairwise distinct,
    and every order refers to a customer and to products of the store, has
    at least one product, and carries as total the sum of the prices of its
    products. *)
Theorem reachable_store_sound (seeding : bool) (s : Store) :
  reachable seeding s ->
  emails_unique s /\ pk_unique s /\
  forall o, In o (orders s) ->
    customer_present (Order.customer o) s /\
    Order.products o <> [] /\
    (forall i, In i (Order.products o) -> product_present i s) /\
    Order.total_amount o = sum_Z (map (price_at s) (Order.products o)).
Proof.
  intro Hr.
  assert (Hs : store_sound s).
  { induction Hr as [|s s' _ IH Hm|s _ _ IH].
    - repeat split; constructor.
    - exact (mutation_store_sound s s' Hm IH).
    - exact (run_store_sound s IH). }
  destruct Hs as [Hem [Hpk Hord]]. split; [exact Hem|]. split; [exact Hpk|].
  intros o Ho. rewrite Forall_forall in Hord. exact (Hord o Ho).
Qed.

Lemma reachable_store_sound_witness :
  let s1 := store_after run empty_store in
  let s2 := store_after (CreateOrder (Key 2) [Key 3; Key 1]) s1 in
  reachable true s2 /\
  emails_unique s2 /\
  (forall o, In o (orders s2) ->
     Order.total_amount o = sum_Z (map (price_at s2) (Order.products o))) /\
  orders s2 = [Order.Build 1 1 [1; 2] 135000; Order.Build 2 2 [1; 3] 92500].
Proof.
  intros s1 s2.
  assert (Hr : reachable true s2).
  { apply reachable_mutation with (s := s1).
    - apply reachable_seed; [reflexivity|constructor].
    - apply mutation_CreateOrder. }
  destruct (reachable_store_sound true s2 Hr) as [Hem [_ Hord]].
  split; [exact Hr|]. split; [exact Hem|]. split.
  - intros o Ho. apply (Hord o Ho).
  - reflexivity.
Defined.

(** ** More on BulkCreateCustomers *)




(** X8.  For an entry whose name and email are given, the bulk call on that
    entry alone and CreateCustomer with the same fields leave the same
    store, and the one creates a customer exactly when the other succeeds:
    then both report the same customer. *)
Theorem bulk_single_entry_as_CreateCustomer
    (s : Store) (name email : string) (phone : option string) :
  name <> EmptyString -> email <> EmptyString ->
  let d := CustomerData.Build (Some name) (Some email) phone in
  store_after (BulkCreateCustomers [d]) s =
  store_after (CreateCustomer name email phone) s /\
  ((exists c msg,
       outcome (CreateCustomer name email phone) s = inr (c, msg) /\
       outcome (BulkCreateCustomers [d]) s = inr ([c], []))
   \/
   (exists e e',
       outcome (CreateCustomer name email phone) s = inl e /\
       outcome (BulkCreateCustomers [d]) s = inr ([], [e']))).
Proof.
  intros Hn He d. unfold store_after, outcome.
  rewrite BulkCreateCustomers_loop, bulk_loop_cons.
  assert (Hv : entry_valid s d =
               negb (existsb (has_email email) (customers s)) &&
               negb (phone_rejected phone)).
  { unfold entry_valid, d. cbn.
    destruct name; [contradiction|]. destruct email; [contradiction|].
    reflexivity. }
  destruct (existsb (has_email email) (customers s)) eqn:Hex.
  - rewrite (CreateCustomer_taken s name email phone Hex).
    destruct (bulk_try_invalid s d Hv) as [e ->]. cbn.
    split; [reflexivity|]. right. now do 2 eexists.
  - apply email_exists_false in Hex.
    rewrite (CreateCustomer_fresh s name email phone Hex).
    destruct (phone_rejected phone).
    + destruct (bulk_try_invalid s d Hv) as [e ->]. cbn.
      split; [reflexivity|]. right. now do 2 eexists.
    + rewrite (bulk_try_valid s d Hv). cbn.
      split; [reflexivity|]. left. now do 2 eexists.
Qed.

Lemma bulk_single_entry_as_CreateCustomer_witness :
  let d := CustomerData.Build (Some "Bob") (Some "bob@example.com")
                              (Some "123-456-7890") in
  let bob := Customer.Build 1 "Bob" "bob@example.com" (Some "123-456-7890") in
  store_after (BulkCreateCustomers [d]) empty_store =
  store_after (CreateCustomer "Bob" "bob@example.com" (Some "123-456-7890"))
              empty_store /\
  outcome (BulkCreateCustomers [d]) empty_store = inr ([bob], []).
Proof.
  intros d bob. split.
  - apply (bulk_single_entry_as_CreateCustomer empty_store "Bob"
             "bob@example.com" (Some "123-456-7890")); discriminate.
  - reflexivity.
Defined.

(** ** More on the seed routine *)

Lemma for_each_cons {A} (body : A -> M unit) (x : A) (l : list A) (s : Store) :
  for_each body (x :: l) s =
  match body x s with
  | (inr _, s1) => for_each body l s1
  | (inl e, s1) => (inl e, s1)
  end.
Proof. reflexivity. Qed.

(** A loop of get-or-create steps, each on the natural key of its item.
    [count k s] is the number of rows of [s] the key [k] selects. *)
Section GetOrCreate.

Variable D : Type.
Variable key : D -> string.
Variable count : string -> Store -> nat.
Variable body : D -> M unit.

Hypothesis body_absent : forall x s,
    count (key x) s = 0%nat ->
    exists s', body x s = (inr tt, s') /\ count (key x) s' = 1%nat /\
               forall k, k <> key x -> count k s' = count k s.
Hypothesis body_single : forall x s,
    count (key x) s = 1%nat -> body x s = (inr tt, s).
Hypothesis body_many : forall x s,
    (2 <= count (key x) s)%nat -> body x s = (inl MultipleObjectsReturned, s).

Lemma body_cases (x : D) (s : Store) :
  (exists s', body x s = (inr tt, s') /\ count (key x) s' = 1%nat /\
              (count (key x) s <= 1)%nat /\
              forall k, k <> key x -> count k s' = count k s)
  \/ (body x s = (inl MultipleObjectsReturned, s) /\
      (2 <= count (key x) s)%nat).
Proof.
  destruct (count (key x) s) as [|[|n]] eqn:E.
  - left. destruct (body_absent x s E) as [s' [Hb [H1 Hk]]].
    exists s'. repeat split; try assumption. lia.
  - left. exists s. rewrite (body_single x s E). repeat split; try lia.
  - right. split; [|lia]. apply body_many. lia.
Qed.

Lemma loop_keeps_other_keys (k : string) (l : list D) :
  forall s s', ~ In k (map key l) ->
               for_each body l s = (inr tt, s') -> count k s' = count k s.
Proof.
  induction l as [|x l IH]; intros s s' Hk Hrun.
  - cbn in Hrun. unfold ret in Hrun. now injection Hrun as <-.
  - rewrite for_each_cons in Hrun. cbn [map] in Hk.
    destruct (body_cases x s) as [[s1 [Hb [_ [_ Hother]]]] | [Hb _]];
      rewrite Hb in Hrun; [|discriminate].
    rewrite (IH s1 s'); [|intro Hin; apply Hk; now right|assumption].
    apply Hother. intro Heq. apply Hk. now left.
Qed.

(** After a loop that ended normally every key of the loop selects exactly
    one row. *)
Lemma loop_seeds (l : list D) :
  forall s s', NoDup (map key l) ->
               for_each body l s = (inr tt, s') ->
               forall x, In x l -> count (key x) s' = 1%nat.
Proof.
  induction l as [|x l IH]; intros s s' Hnd Hrun y Hy; [destruct Hy|].
  rewrite for_each_cons in Hrun. cbn [map] in Hnd.
  inversion Hnd as [|k ks Hnotin Hrest]; subst.
  destruct (body_cases x s) as [[s1 [Hb [H1 _]]] | [Hb _]];
    rewrite Hb in Hrun; [|discriminate].
  destruct Hy as [<- | Hy].
  - now rewrite (loop_keeps_other_keys (key x) l s1 s' Hnotin Hrun).
  - exact (IH s1 s' Hrest Hrun y Hy).
Qed.

(** When every key of the loop selects exactly one row, the loop writes
    nothing. *)
Lemma loop_on_seeded (l : list D) (s : Store) :
  (forall x, In x l -> count (key x) s = 1%nat) ->
  for_each body l s = (inr tt, s).
Proof.
  induction l as [|x l IH]; intro H; [reflexivity|].
  rewrite for_each_cons, (body_single x s (H x (or_introl eq_refl))).
  apply IH. intros y Hy. apply H. now right.
Qed.

(** When no key of the loop selects two rows, the loop ends normally. *)
Lemma loop_succeeds (l : list D) :
  forall s, (forall x, In x l -> (count (key x) s <= 1)%nat) ->
            exists s', for_each body l s = (inr tt, s').
Proof.
  induction l as [|x l IH]; intros s H.
  - now exists s.
  - rewrite for_each_cons.
    destruct (body_cases x s) as [[s1 [Hb [H1 [_ Hother]]]] | [_ Hmany]].
    + rewrite Hb. apply IH. intros y Hy.
      destruct (string_dec (key y) (key x)) as [Heq|Hne].
      * rewrite Heq. lia.
      * rewrite (Hother _ Hne). apply H. now right.
    + specialize (H x (or_introl eq_refl)). lia.
Qed.

(** When some key of the loop selects two rows or more, the loop raises. *)
Lemma loop_raises (l : list D) (x : D) :
  forall s, In x l -> (2 <= count (key x) s)%nat ->
            outcome (for_each body l) s = inl MultipleObjectsReturned.
Proof.
  unfold outcome. induction l as [|y l IH]; intros s Hx Hmany; [destruct Hx|].
  rewrite for_each_cons.
  destruct (body_cases y s) as [[s1 [Hb [_ [Hle Hother]]]] | [Hb _]];
    rewrite Hb; [|reflexivity].
  destruct Hx as [-> | Hx]; [lia|].
  apply IH; [assumption|].
  rewrite Hother; [assumption|]. intro Heq. rewrite Heq in Hmany. lia.
Qed.

End GetOrCreate.

Lemma seed_loops :
  seed_customers = for_each seed_customer customers_data /\
  seed_products = for_each seed_product products_data.
Proof. split; reflexivity. Qed.

Lemma seed_customer_absent (x : string * string * string) (s : Store) :
  count_email (data_email x) s = 0%nat ->
  exists s', seed_customer x s = (inr tt, s') /\
             count_email (data_email x) s' = 1%nat /\
             forall k, k <> data_email x -> count_email k s' = count_email k s.
Proof.
  destruct x as [[name email] phone]. unfold count_email, data_email.
  cbn [fst snd]. intro H0. apply length_zero_iff_nil in H0.
  exists (add_customer (new_customer s name email (Some phone)) s).
  split; [|split].
  - unfold seed_customer, bind. rewrite Customer_get_or_create_cases, H0.
    reflexivity.
  - unfold customers_with_email in *. cbn [add_customer customers].
    rewrite filter_app, H0. cbn [filter app]. unfold has_email at 1.
    cbn [new_customer Customer.email]. now rewrite String.eqb_refl.
  - intros k Hk. unfold customers_with_email. cbn [add_customer customers].
    rewrite filter_app. cbn [filter]. unfold has_email at 2.
    cbn [new_customer Customer.email].
    destruct (String.eqb_spec email k) as [Heq|_]; [now subst|].
    now rewrite app_nil_r.
Qed.

Lemma seed_customer_single (x : string * string * string) (s : Store) :
  count_email (data_email x) s = 1%nat -> seed_customer x s = (inr tt, s).
Proof.
  destruct x as [[name email] phone]. unfold count_email, data_email.
  cbn [fst snd]. intro H1.
  unfold seed_customer, bind. rewrite Customer_get_or_create_cases.
  destruct (customers_with_email email s) as [|c [|c' l]];
    try discriminate. reflexivity.
Qed.

Lemma seed_customer_many (x : string * string * string) (s : Store) :
  (2 <= count_email (data_email x) s)%nat ->
  seed_customer x s = (inl MultipleObjectsReturned, s).
Proof.
  destruct x as [[name email] phone]. unfold count_email, data_email.
  cbn [fst snd]. intro H2.
  unfold seed_customer, bind. rewrite Customer_get_or_create_cases.
  destruct (customers_with_email email s) as [|c [|c' l]];
    cbn in H2; try lia. reflexivity.
Qed.

Lemma seed_product_absent (x : string * Z * Z) (s : Store) :
  count_name (data_name x) s = 0%nat ->
  exists s', seed_product x s = (inr tt, s') /\
             count_name (data_name x) s' = 1%nat /\
             forall k, k <> data_name x -> count_name k s' = count_name k s.
Proof.
  destruct x as [[name price] stock]. unfold count_name, data_name.
  cbn [fst snd]. intro H0. apply length_zero_iff_nil in H0.
  exists (add_product (new_product s name price stock) s).
  split; [|split].
  - unfold seed_product, bind. rewrite Product_get_or_create_cases, H0.
    reflexivity.
  - unfold products_named in *. cbn [add_product products].
    rewrite filter_app, H0. cbn [filter app new_product Product.name].
    now rewrite String.eqb_refl.
  - intros k Hk. unfold products_named. cbn [add_product products].
    rewrite filter_app. cbn [filter new_product Product.name].
    destruct (String.eqb_spec name k) as [Heq|_]; [now subst|].
    now rewrite app_nil_r.
Qed.

Lemma seed_product_single (x : string * Z * Z) (s : Store) :
  count_name (data_name x) s = 1%nat -> seed_product x s = (inr tt, s).
Proof.
  destruct x as [[name price] stock]. unfold count_name, data_name.
  cbn [fst snd]. intro H1.
  unfold seed_product, bind. rewrite Product_get_or_create_cases.
  destruct (products_named name s) as [|p [|p' l]]; try discriminate.
  reflexivity.
Qed.

Lemma seed_product_many (x : string * Z * Z) (s : Store) :
  (2 <= count_name (data_name x) s)%nat ->
  seed_product x s = (inl MultipleObjectsReturned, s).
Proof.
  destruct x as [[name price] stock]. unfold count_name, data_name.
  cbn [fst snd]. intro H2.
  unfold seed_product, bind. rewrite Product_get_or_create_cases.
  destruct (products_named name s) as [|p [|p' l]]; cbn in H2; try lia.
  reflexivity.
Qed.

(** What the three parts of the routine leave alone. *)
Lemma seed_customers_frame (s : Store) :
  products (store_after seed_customers s) = products s /\
  orders (store_after seed_customers s) = orders s.
Proof.
  unfold seed_customers.
  apply (for_each_preserves
           (fun s' => products s' = products s /\ orders s' = orders s));
    [|now split].
  intros [[name email] phone] s0 Hs0. unfold store_after, bind.
  rewrite Customer_get_or_create_cases.
  destruct (customers_with_email email s0) as [|c [|c' l]]; exact Hs0.
Qed.

Lemma seed_products_frame (s : Store) :
  customers (store_after seed_products s) = customers s /\
  orders (store_after seed_products s) = orders s.
Proof.
  unfold seed_products.
  apply (for_each_preserves
           (fun s' => customers s' = customers s /\ orders s' = orders s));
    [|now split].
  intros [[name price] stock] s0 Hs0. unfold store_after, bind.
  rewrite Product_get_or_create_cases.
  destruct (products_named name s0) as [|p [|p' l]]; exact Hs0.
Qed.

Lemma run_unfold (s : Store) :
  run s =
  match seed_customers s with
  | (inr _, s1) =>
      match seed_products s1 with
      | (inr _, s2) => seed_orders s2
      | (inl e, s2) => (inl e, s2)
      end
  | (inl e, s1) => (inl e, s1)
  end.
Proof. reflexivity. Qed.

Lemma emails_unique_count (email : string) (s : Store) :
  emails_unique s -> (count_email email s <= 1)%nat.
Proof.
  unfold emails_unique, count_email, customers_with_email.
  induction (customers s) as [|c l IH]; cbn [map filter]; intro Hnd.
  - cbn. lia.
  - inversion Hnd as [|x xs Hnotin Hrest]; subst.
    destruct (has_email email c) eqn:Hc; [|now apply IH].
    rewrite filter_none; [cbn; lia|].
    intros c' Hc'. unfold has_email in *. apply String.eqb_eq in Hc.
    apply String.eqb_neq. intro Heq. apply Hnotin. rewrite Hc, <- Heq.
    now apply in_map.
Qed.

(** X12.  What seed_orders does in any store: nothing when there is no customer
    or no product; otherwise it appends one order, for the customer with
    the least key, on the first two products of the table (the only one
    when there is one), whichever they are, with the sum of their prices as
    total.  It never raises and never touches customers or products. *)
Theorem seed_orders_effect (s : Store) :
  (customers s = [] \/ products s = [] -> seed_orders s = (inr tt, s))
  /\
  (customers s <> [] -> products s <> [] ->
   exists o,
     seed_orders s = (inr tt, add_order o s) /\
     customer_present (Order.customer o) s /\
     (forall c, In c (customers s) -> Order.customer o <= Customer.id c) /\
     Order.products o = map Product.id (firstn 2 (products s)) /\
     Order.total_amount o = sum_prices (firstn 2 (products s)) /\
     (1 <= List.length (Order.products o) <= 2)%nat).
Proof.
  rewrite seed_orders_unfold. split.
  - intros [-> | Hp]; [reflexivity|]. rewrite Hp.
    destruct (customers s); reflexivity.
  - intros Hc Hp.
    destruct (customers s) as [|c0 cs] eqn:Ec; [contradiction|].
    destruct (products s) as [|p0 ps] eqn:Ep; [contradiction|].
    destruct (first_by_pk_least cs c0) as [Hin Hle].
    eexists. split; [reflexivity|].
    cbn [new_order Order.customer Order.products Order.total_amount].
    repeat split.
    + exists (first_by_pk c0 cs). split; [now rewrite Ec|reflexivity].
    + exact Hle.
    + destruct ps; cbn; lia.
    + destruct ps; cbn; lia.
Qed.

Lemma seed_orders_effect_witness :
  let s := mkStore [Customer.Build 7 "Zoe" "zoe@example.com" None;
                    Customer.Build 3 "Yan" "yan@example.com" None]
                   [Product.Build 5 "Desk" 12000 1] [] in
  seed_orders empty_store = (inr tt, empty_store) /\
  exists o,
    seed_orders s = (inr tt, add_order o s) /\
    Order.customer o <= 3 /\
    Order.products o = [5] /\
    Order.total_amount o = 12000.
Proof.
  intro s. split.
  - apply (proj1 (seed_orders_effect empty_store)). left. reflexivity.
  - destruct (proj2 (seed_orders_effect s))
      as [o [Ho [_ [Hle [Hps [Htot _]]]]]]; try discriminate.
    exists o. split; [exact Ho|]. split; [|split].
    + apply (Hle (Customer.Build 3 "Yan" "yan@example.com" None)).
      simpl. right. left. reflexivity.
    + exact Hps.
    + exact Htot.
Defined.

(** X13.  In a store whose emails are pairwise distinct the seed routine ends
    normally exactly when none of the three sample product names is carried
    by two products or more; otherwise it raises MultipleObjectsReturned
    and creates no order.  CreateProduct does not check names, so such a
    store is reachable. *)
Theorem run_outcome (s : Store) :
  emails_unique s ->
  (outcome run s = inr tt <->
   forall name, In name ["Laptop"; "Phone"; "Headphones"] ->
                (List.length (products_named name s) <= 1)%nat)
  /\
  (outcome run s = inr tt \/
   (outcome run s = inl MultipleObjectsReturned /\
    orders (store_after run s) = orders s)).
Proof.
  intro Hu.
  (* the customers are seeded without error *)
  destruct (loop_succeeds _ data_email count_email seed_customer
              seed_customer_absent seed_customer_single seed_customer_many
              customers_data s) as [s1 Hc].
  { intros x _. now apply emails_unique_count. }
  destruct (seed_customers_frame s) as [Hp1 Ho1].
  unfold store_after in Hp1, Ho1. rewrite (proj1 seed_loops) in Hp1, Ho1.
  rewrite Hc in Hp1, Ho1. cbn [snd] in Hp1, Ho1.
  assert (Hcount : forall name, count_name name s1 = count_name name s).
  { intro name. unfold count_name, products_named. now rewrite Hp1. }
  assert (Hrun : run s = match seed_products s1 with
                         | (inr _, s2) => seed_orders s2
                         | (inl e, s2) => (inl e, s2)
                         end).
  { rewrite run_unfold, (proj1 seed_loops), Hc. reflexivity. }
  (* a repeated sample name makes the product loop raise *)
  assert (Hbad : forall x, In x products_data ->
                   (2 <= count_name (data_name x) s)%nat ->
                   outcome run s = inl MultipleObjectsReturned /\
                   orders (store_after run s) = orders s).
  { intros x Hx Hmany.
    pose proof (loop_raises _ data_name count_name seed_product
                  seed_product_absent seed_product_single seed_product_many
                  products_data x s1 Hx) as Hraise.
    rewrite Hcount in Hraise. specialize (Hraise Hmany).
    destruct (seed_products_frame s1) as [_ Ho2].
    unfold outcome, store_after in *. rewrite Hrun.
    rewrite (proj2 seed_loops) in Ho2 |- *.
    destruct (for_each seed_product products_data s1) as [[e|u] s2];
      cbn [fst snd] in *; [|discriminate].
    injection Hraise as ->. split; [reflexivity|congruence]. }
  (* otherwise the routine ends normally *)
  assert (Hgood : (forall x, In x products_data ->
                     (count_name (data_name x) s <= 1)%nat) ->
                  outcome run s = inr tt).
  { intro Hle.
    destruct (loop_succeeds _ data_name count_name seed_product
                seed_product_absent seed_product_single seed_product_many
                products_data s1) as [s2 Hp].
    { intros x Hx. rewrite Hcount. now apply Hle. }
    unfold outcome. rewrite Hrun, (proj2 seed_loops), Hp.
    rewrite seed_orders_unfold.
    destruct (customers s2); [reflexivity|].
    destruct (products s2); reflexivity. }
  assert (Hnames : forall x, In x products_data ->
                     In (data_name x) ["Laptop"; "Phone"; "Headphones"]).
  { intros x [<- | [<- | [<- | []]]]; cbn; tauto. }
  assert (Hdata : forall name, In name ["Laptop"; "Phone"; "Headphones"] ->
                    exists x, In x products_data /\ data_name x = name).
  { intros name [<- | [<- | [<- | []]]];
      [exists ("Laptop", 85000, 10) | exists ("Phone", 50000, 20)
       | exists ("Headphones", 7500, 50)];
      (split; [cbn; tauto|reflexivity]). }
  split; [split|].
  - intros Hok name Hname. destruct (Hdata name Hname) as [x [Hx <-]].
    fold (count_name (data_name x) s).
    destruct (le_lt_dec (count_name (data_name x) s) 1) as [Hle|Hgt];
      [assumption|].
    destruct (Hbad x Hx Hgt) as [Hraise _]. congruence.
  - intro Hle. apply Hgood. intros x Hx. apply Hle. now apply Hnames.
  - assert (Hdec : forall l : list (string * Z * Z),
                   (forall x, In x l ->
                      (count_name (data_name x) s <= 1)%nat) \/
                   (exists x, In x l /\
                      (2 <= count_name (data_name x) s)%nat)).
    { induction l as [|x l IH].
      - left. intros x [].
      - destruct (le_lt_dec (count_name (data_name x) s) 1) as [Hle|Hgt].
        + destruct IH as [Hall | [y [Hy Hmany]]].
          * left. intros y [<- | Hy]; [assumption|now apply Hall].
          * right. exists y. split; [now right|assumption].
        + right. exists x. split; [now left|assumption]. }
    destruct (Hdec products_data) as [Hall | [x [Hx Hmany]]].
    + left. now apply Hgood.
    + right. exact (Hbad x Hx Hmany).
Qed.

Lemma run_outcome_witness :
  let s1 := store_after (createProduct "Laptop" 850.00 (Some 10)) empty_store in
  let s2 := store_after (createProduct "Laptop" 990.00 None) s1 in
  reachable false s2 /\
  emails_unique s2 /\
  List.length (products_named "Laptop" s2) = 2%nat /\
  outcome run s2 = inl MultipleObjectsReturned /\
  orders (store_after run s2) = orders s2 /\
  outcome run empty_store = inr tt.
Proof.
  intros s1 s2.
  assert (Hr : reachable false s2).
  { apply reachable_mutation with (s := s1).
    - apply reachable_mutation with (s := empty_store); constructor.
    - constructor. }
  assert (Hu2 : emails_unique s2) by constructor.
  assert (Hu0 : emails_unique empty_store) by constructor.
  split; [exact Hr|]. split; [exact Hu2|]. split; [reflexivity|].
  destruct (run_outcome s2 Hu2) as [[Hiff _] [Hok | [Hraise Hord]]].
  - exfalso. specialize (Hiff Hok "Laptop" (or_introl eq_refl)).
    vm_compute in Hiff. lia.
  - split; [exact Hraise|]. split; [exact Hord|].
    apply (proj1 (run_outcome empty_store Hu0)).
    intros name _. simpl. lia.
Defined.

Lemma seed_orders_frame (s : Store) :
  customers (store_after seed_orders s) = customers s /\
  products (store_after seed_orders s) = products s.
Proof.
  unfold store_after. rewrite seed_orders_unfold.
  destruct (customers s) as [|c0 cs] eqn:Ec; [now split|].
  destruct (products s) as [|p0 ps] eqn:Ep; now split.
Qed.

Lemma count_email_same_customers (k : string) (s s' : Store) :
  customers s' = customers s -> count_email k s' = count_email k s.
Proof.
  intro H. unfold count_email, customers_with_email. now rewrite H.
Qed.

Lemma count_name_same_products (k : string) (s s' : Store) :
  products s' = products s -> count_name k s' = count_name k s.
Proof.
  intro H. unfold count_name, products_named. now rewrite H.
Qed.

(** X14.  Whatever the store, once the seed routine has ended normally every
    sample email selects exactly one customer and every sample name exactly
    one product, and a further run ends normally, leaves customers and
    products as they are, and appends exactly one order. *)
Theorem run_again (s : Store) :
  outcome run s = inr tt ->
  let s' := store_after run s in
  (forall email,
      In email ["alice@example.com"; "bob@example.com"; "charlie@example.com"] ->
      List.length (customers_with_email email s') = 1%nat) /\
  (forall name, In name ["Laptop"; "Phone"; "Headphones"] ->
                List.length (products_named name s') = 1%nat) /\
  exists o, run s' = (inr tt, add_order o s').
Proof.
  unfold outcome, store_after. rewrite run_unfold.
  destruct (seed_customers s) as [[e|[]] s1] eqn:E1; [discriminate|].
  destruct (seed_products s1) as [[e|[]] s2] eqn:E2; [discriminate|].
  intros _. set (s' := snd (seed_orders s2)).
  (* the tables after the first run *)
  destruct (seed_products_frame s1) as [Hc2 _].
  unfold store_after in Hc2. rewrite E2 in Hc2. cbn [snd] in Hc2.
  destruct (seed_orders_frame s2) as [Hc3 Hp3].
  fold s' in Hc3, Hp3. unfold store_after in Hc3, Hp3. fold s' in Hc3, Hp3.
  (* every sample key selects one row *)
  assert (Qc : forall x, In x customers_data ->
                 count_email (data_email x) s' = 1%nat).
  { intros x Hx.
    rewrite (count_email_same_customers _ s1 s') by congruence.
    apply (loop_seeds _ data_email count_email seed_customer
             seed_customer_absent seed_customer_single seed_customer_many
             customers_data s s1); try assumption.
    repeat constructor; simpl; intuition discriminate. }
  assert (Qp : forall x, In x products_data ->
                 count_name (data_name x) s' = 1%nat).
  { intros x Hx.
    rewrite (count_name_same_products _ s2 s') by congruence.
    apply (loop_seeds _ data_name count_name seed_product
             seed_product_absent seed_product_single seed_product_many
             products_data s1 s2); try assumption.
    repeat constructor; simpl; intuition discriminate. }
  split; [|split].
  - intros email [<- | [<- | [<- | []]]].
    + apply (Qc ("Alice", "alice@example.com", "12345")). cbn. tauto.
    + apply (Qc ("Bob", "bob@example.com", "67890")). cbn. tauto.
    + apply (Qc ("Charlie", "charlie@example.com", "11223")). cbn. tauto.
  - intros name [<- | [<- | [<- | []]]].
    + apply (Qp ("Laptop", 85000, 10)). cbn. tauto.
    + apply (Qp ("Phone", 50000, 20)). cbn. tauto.
    + apply (Qp ("Headphones", 7500, 50)). cbn. tauto.
  - rewrite run_unfold.
    rewrite (proj1 seed_loops),
      (loop_on_seeded _ data_email count_email seed_customer
         seed_customer_single customers_data s' Qc).
    rewrite (proj2 seed_loops),
      (loop_on_seeded _ data_name count_name seed_product
         seed_product_single products_data s' Qp).
    rewrite seed_orders_unfold.
    pose proof (Qc ("Alice", "alice@example.com", "12345")
                  (or_introl eq_refl)) as Ha.
    pose proof (Qp ("Laptop", 85000, 10) (or_introl eq_refl)) as Hl.
    unfold count_email, customers_with_email in Ha.
    unfold count_name, products_named in Hl.
    destruct (customers s') as [|c0 cs]; [discriminate|].
    destruct (products s') as [|p0 ps] eqn:Ep; [discriminate|].
    eexists. reflexivity.
Qed.

Lemma run_again_witness :
  let s := mkStore [Customer.Build 4 "Bob" "bob@example.com" None]
                   [Product.Build 9 "Desk" 12000 1] [] in
  let s' := store_after run s in
  outcome run s = inr tt /\
  List.length (customers s') = 3%nat /\
  List.length (products s') = 4%nat /\
  exists o, run s' = (inr tt, add_order o s').
Proof.
  intros s s'.
  assert (Hok : outcome run s = inr tt) by reflexivity.
  split; [exact Hok|]. split; [reflexivity|]. split; [reflexivity|].
  exact (proj2 (proj2 (run_again s Hok))).
Defined.

(** ** Rows are only ever appended *)

Lemma extends_refl (s : Store) : extends s s.
Proof. repeat split; exists []; now rewrite app_nil_r. Qed.

Lemma extends_trans (s1 s2 s3 : Store) :
  extends s1 s2 -> extends s2 s3 -> extends s1 s3.
Proof.
  intros [[c1 Hc1] [[p1 Hp1] [o1 Ho1]]] [[c2 Hc2] [[p2 Hp2] [o2 Ho2]]].
  split; [|split].
  - exists (c1 ++ c2)%list. now rewrite Hc2, Hc1, app_assoc.
  - exists (p1 ++ p2)%list. now rewrite Hp2, Hp1, app_assoc.
  - exists (o1 ++ o2)%list. now rewrite Ho2, Ho1, app_assoc.
Qed.

Lemma extends_add_customer (s : Store) (c : Customer.t) :
  extends s (add_customer c s).
Proof.
  split; [|split]; cbn; [now exists [c]| |]; exists []; now rewrite app_nil_r.
Qed.

Lemma extends_add_product (s : Store) (p : Product.t) :
  extends s (add_product p s).
Proof.
  split; [|split]; cbn; [|now exists [p]|]; exists []; now rewrite app_nil_r.
Qed.

Lemma extends_add_order (s : Store) (o : Order.t) :
  extends s (add_order o s).
Proof.
  split; [|split]; cbn; [| |now exists [o]]; exists []; now rewrite app_nil_r.
Qed.

Lemma extends_with_customers (s : Store) (cs : list Customer.t) :
  extends s (with_customers s cs).
Proof.
  split; [|split]; cbn; [now exists cs| |]; exists []; now rewrite app_nil_r.
Qed.

(** X11.  No operation of the program changes or removes a row that is already in
    the store: after any mutation call and after the seed routine, whether
    they end normally or raise, each table is the former table followed by
    the rows created. *)
Theorem operations_only_append (s s' : Store) :
  mutation s s' \/ s' = store_after run s -> extends s s'.
Proof.
  intros [Hm | ->].
  - destruct Hm; unfold store_after.
    + destruct (existsb (has_email email) (customers s)) eqn:Hex.
      * rewrite (CreateCustomer_taken s name email phone Hex).
        apply extends_refl.
      * apply email_exists_false in Hex.
        rewrite (CreateCustomer_fresh s name email phone Hex).
        destruct (phone_rejected phone);
          [apply extends_refl|apply extends_add_customer].
    + rewrite BulkCreateCustomers_loop.
      destruct (bulk_loop_run customers0 s) as [cs [es [-> _]]].
      apply extends_with_customers.
    + destruct (createProduct_effect s name price stock)
        as [[e ->] | [stock' ->]];
        [apply extends_refl|apply extends_add_product].
    + destruct (CreateOrder_effect s customer_id product_ids)
        as [[e ->] | [c [ps [_ [_ [_ ->]]]]]];
        [apply extends_refl|apply extends_add_order].
  - unfold run. apply bind_preserves.
    + unfold seed_customers. apply for_each_preserves; [|apply extends_refl].
      intros [[name email] phone] s0 Hs0. unfold store_after, bind.
      rewrite Customer_get_or_create_cases.
      destruct (customers_with_email email s0) as [|c [|c' l]];
        try exact Hs0.
      cbn [snd]. exact (extends_trans _ _ _ Hs0 (extends_add_customer s0 _)).
    + intros _ s1 Hs1. apply bind_preserves.
      * unfold seed_products. apply for_each_preserves; [|exact Hs1].
        intros [[name price] stock] s0 Hs0. unfold store_after, bind.
        rewrite Product_get_or_create_cases.
        destruct (products_named name s0) as [|p [|p' l]]; try exact Hs0.
        cbn [snd]. exact (extends_trans _ _ _ Hs0 (extends_add_product s0 _)).
      * intros _ s2 Hs2. unfold store_after. rewrite seed_orders_unfold.
        destruct (customers s2); [exact Hs2|].
        destruct (products s2); [exact Hs2|].
        cbn [snd]. exact (extends_trans _ _ _ Hs2 (extends_add_order s2 _)).
Qed.

Lemma operations_only_append_witness :
  let s := mkStore [Customer.Build 4 "Bob" "bob@example.com" None]
                   [Product.Build 9 "Desk" 12000 1] [] in
  extends s (store_after run s) /\
  extends s (store_after (CreateOrder (Key 4) [Key 9]) s).
Proof.
  intro s. split.
  - apply operations_only_append. right. reflexivity.
  - apply operations_only_append. left. constructor.
Defined.

(** ** The ids of an order request *)

Lemma products_in_same_members (ids ids' : list Z) (s : Store) :
  (forall i, In i ids <-> In i ids') ->
  products_in ids s = products_in ids' s.
Proof.
  intro Hsame. unfold products_in. apply filter_ext. intro p.
  destruct (existsb (Z.eqb (Product.id p)) ids) eqn:E;
    destruct (existsb (Z.eqb (Product.id p)) ids') eqn:E'; try reflexivity.
  - apply existsb_exists in E. destruct E as [i [Hi Heq]].
    apply Hsame in Hi.
    assert (H : existsb (Z.eqb (Product.id p)) ids' = true)
      by (apply existsb_exists; now exists i).
    congruence.
  - apply existsb_exists in E'. destruct E' as [i [Hi Heq]].
    apply Hsame in Hi.
    assert (H : existsb (Z.eqb (Product.id p)) ids = true)
      by (apply existsb_exists; now exists i).
    congruence.
Qed.

Lemma forallb_permutation {A} (f : A -> bool) (l l' : list A) :
  Permutation l l' -> forallb f l = forallb f l'.
Proof.
  induction 1; cbn [forallb].
  - reflexivity.
  - now rewrite IHPermutation.
  - now rewrite !andb_assoc, (andb_comm (f y) (f x)).
  - congruence.
Qed.

(** X6.  The order in which a request lists the product ids does not matter:
    two lists that are permutations of each other give the same outcome and
    the same store, the same order row included, whose products are listed
    in table order.  This holds whatever the ids are, integers or not. *)
Theorem CreateOrder_permutation
    (s : Store) (customer_id : ID) (product_ids product_ids' : list ID) :
  Permutation product_ids product_ids' ->
  CreateOrder customer_id product_ids s =
  CreateOrder customer_id product_ids' s.
Proof.
  intro Hperm. rewrite !CreateOrder_cases.
  assert (Hkeys : Permutation (map key_of product_ids)
                              (map key_of product_ids'))
    by (now apply Permutation_map).
  assert (Hsel : products_in (map key_of product_ids) s =
                 products_in (map key_of product_ids') s).
  { apply products_in_same_members. intro i. split; intro Hi.
    - exact (Permutation_in i Hkeys Hi).
    - exact (Permutation_in i (Permutation_sym Hkeys) Hi). }
  assert (Hemp : is_empty product_ids = is_empty product_ids').
  { pose proof (Permutation_length Hperm) as Hlen.
    destruct product_ids, product_ids'; try reflexivity; discriminate. }
  now rewrite Hsel, Hemp, (Permutation_length Hperm),
    (forallb_permutation is_key _ _ Hperm),
    (forallb_permutation in_key_range _ _ Hkeys).
Qed.

Lemma CreateOrder_permutation_witness :
  let s := store_after run empty_store in
  Permutation [Key 3; Key 1] [Key 1; Key 3] /\
  CreateOrder (Key 2) [Key 3; Key 1] s = CreateOrder (Key 2) [Key 1; Key 3] s /\
  outcome (CreateOrder (Key 2) [Key 3; Key 1]) s =
  inr (Order.Build 2 2 [1; 3] 92500).
Proof.
  intro s.
  assert (Hperm : Permutation [Key 3; Key 1] [Key 1; Key 3]) by apply perm_swap.
  split; [exact Hperm|]. split.
  - exact (CreateOrder_permutation s (Key 2) _ _ Hperm).
  - reflexivity.
Defined.

(** ** Witnesses of earlier statements *)

Lemma CreateOrder_distinct_ids_witness :
  let s := store_after run empty_store in
  products_pk_unique s /\ customer_present 2 s /\
  (exists order,
      CreateOrder (Key 2) [Key 3; Key 1] s = (inr order, add_order order s) /\
      Order.total_amount order = 7500 + 85000) /\
  CreateOrder (Key 2) [Key 3; Key 8] s =
  (inl (ValidationError ReferenceError "Some product IDs are invalid."), s) /\
  CreateOrder (Key 2) [Key 3; NoKey "three"] s = (inl ValueError, s).
Proof.
  intro s.
  assert (Hu : products_pk_unique s).
  { vm_compute. repeat constructor; simpl; intuition discriminate. }
  assert (Hc : customer_present 2 s).
  { exists (Customer.Build 2 "Bob" "bob@example.com" (Some "67890")).
    split; [vm_compute; tauto|reflexivity]. }
  split; [exact Hu|]. split; [exact Hc|]. split; [|split].
  - destruct (proj1 (CreateOrder_distinct_ids s 2 [3; 1] Hu Hc eq_refl eq_refl
                       ltac:(discriminate)))
      as [o [Ho [_ [_ Ht]]]].
    + repeat constructor; simpl; intuition discriminate.
    + intros i [<- | [<- | []]];
        [exists (Product.Build 3 "Headphones" 7500 50)
        |exists (Product.Build 1 "Laptop" 85000 10)];
        (split; [vm_compute; tauto|reflexivity]).
    + exists o. split; [exact Ho|]. rewrite Ht. reflexivity.
  - apply (proj1 (proj2 (CreateOrder_distinct_ids s 2 [3; 8] Hu Hc
                           eq_refl eq_refl ltac:(discriminate)))).
    exists 8. split; [simpl; tauto|].
    intros [p [Hin Hid]]. vm_compute in Hin.
    destruct Hin as [<- | [<- | [<- | []]]]; discriminate.
  - apply (proj2 (proj2 (CreateOrder_distinct_ids s 2 [3] Hu Hc
                           eq_refl eq_refl ltac:(discriminate))));
      [discriminate|reflexivity].
Defined.

Lemma reachable_by_mutations_phones_ok_witness :
  let s := store_after
             (CreateCustomer "Bob" "bob@example.com" (Some "+12345678901"))
             empty_store in
  reachable false s /\ phones_ok s /\
  customers s = [Customer.Build 1 "Bob" "bob@example.com" (Some "+12345678901")].
Proof.
  intro s.
  assert (Hr : reachable false s).
  { apply reachable_mutation with (s := empty_store); constructor. }
  split; [exact Hr|]. split; [|reflexivity].
  exact (reachable_by_mutations_phones_ok s Hr).
Defined.
